(** * Behaviour layer of the site script ([src/script.js])

    A shallow embedding of the utilities and widget controllers of
    [script.js], and the properties the specification states about them.

    Conventions.
    - The time of timers and events is counted in milliseconds, as a
      natural number; the time stamps of animation frames are Numbers.
    - A timer created by [setTimeout(f, d)] at time [t] is due at [t + d];
      the event loop runs a timer at its due time, and before any event
      handler that is dispatched at that time or later.
    - A JavaScript string is a list of UTF-16 code units ([list N]); the
      string literals of the script and the names of classes, attributes
      and element ids are kept as [string].
    - A Number is a binary64 value of IEEE 754: a [spec_float] of the
      Standard Library with precision 53 and maximal exponent 1024, and
      the operations that round to nearest, ties to even.
    - Every closure of the script is represented by the transition it
      performs on the variables it captures. *)

From Stdlib Require Import QArith Qminmax Qpower Lqa Ascii String NArith SpecFloat.
From stdpp Require Import gmap strings list fin_maps.

Set Default Proof Using "Type".
Local Open Scope nat_scope.

(* ===================================================================== *)
(** * Part I. The embedding *)
(* ===================================================================== *)

(** ** Timing utilities *)

(** *** [debounce] (script.js, lines 33-45) *)

Module Debounce.
Section Debounce.
(** The argument list [...args] of one invocation. *)
Context {A : Type}.
(** [debounce(func, wait, immediate = false)] *)
Variable wait : nat.
Variable immediate : bool.

(** A pending [setTimeout(later, wait)]: its handle, the time at which it
    is due and the [args] that the closure [later] captured. *)
Record timer := Timer { handle : positive; due : nat; captured : A }.

(** [timeout] is the variable captured by [executedFunction] ([None] for
    [undefined] and [null]; handles are positive numbers, hence truthy);
    [timers] is the timer table of the host; [calls] records every
    [func.apply(this, args)] with the time at which it ran. *)
Record state := State {
  timeout : option positive;
  timers : list timer;
  fresh : positive;
  calls : list (nat * A)
}.

Definition init : state :=
  {| timeout := None; timers := []; fresh := 1%positive; calls := [] |}.

(** [clearTimeout(timeout)]: does nothing on [undefined], [null] or a
    handle that already ran. *)
Definition clearTimeout (h : option positive) (ts : list timer) : list timer :=
  match h with
  | None => ts
  | Some h => filter (λ t, handle t ≠ h) ts
  end.

(** [const later = () => { timeout = null; if (!immediate) func.apply(this, args); }],
    run at time [now]. *)
Definition later (now : nat) (args : A) (st : state) : state :=
  {| timeout := None;
     timers := timers st;
     fresh := fresh st;
     calls := if immediate then calls st else calls st ++ [(now, args)] |}.

(** The body of [executedFunction(...args)], called at time [now]. *)
Definition executedFunction (now : nat) (args : A) (st : state) : state :=
  let callNow := immediate && negb (bool_decide (is_Some (timeout st))) in
  let cleared := clearTimeout (timeout st) (timers st) in
  let h := fresh st in
  {| timeout := Some h;
     timers := cleared ++ [Timer h (now + wait) args];
     fresh := Pos.succ h;
     calls := if callNow then calls st ++ [(now, args)] else calls st |}.

(** The event loop at time [now]: every timer that is due runs, oldest
    first, and leaves the table. *)
Definition run_timers (now : nat) (st : state) : state :=
  let ready := filter (λ t, due t ≤ now) (timers st) in
  let rest := filter (λ t, ¬ due t ≤ now) (timers st) in
  foldl (λ s t, later (due t) (captured t) s)
        {| timeout := timeout st; timers := rest;
           fresh := fresh st; calls := calls st |}
        ready.

(** An invocation [ev = (now, args)] of the debounced function. *)
Definition call (st : state) (ev : nat * A) : state :=
  executedFunction ev.1 ev.2 (run_timers ev.1 st).

Definition simulate (evs : list (nat * A)) (st : state) : state :=
  foldl call st evs.

(** No timer of the debounced function is pending, and [timeout] is
    [undefined] (before the first call) or [null] (after [later] ran). *)
Definition quiescent (st : state) : Prop :=
  timers st = [] ∧ timeout st = None.

(** A burst that follows a call at time [t]: the calls come in temporal
    order and each one less than [wait] after the one before. *)
Fixpoint tight (t : nat) (evs : list (nat * A)) : Prop :=
  match evs with
  | [] => True
  | ev :: evs' => t ≤ ev.1 ∧ ev.1 < t + wait ∧ tight ev.1 evs'
  end.

(** The state between two calls of a burst: exactly one timer is pending,
    [timeout] holds its handle. *)
Definition armed (t : nat) (a : A) (log : list (nat * A)) (st : state) : Prop :=
  ∃ h, timeout st = Some h ∧ timers st = [Timer h (t + wait) a] ∧ calls st = log.

(** A burst: its first call and the calls that follow it. *)
Definition burst : Type := (nat * A) * list (nat * A).

Definition callsOf (b : burst) : list (nat * A) := b.1 :: b.2.

(** The time of the last call of a burst. *)
Definition lastCall (b : burst) : nat := (List.last b.2 b.1).1.

(** A sequence of bursts, none of which starts before [t]: inside a burst
    each call comes less than [wait] after the one before, and a burst starts
    at least [wait] after the last call of the burst before it. *)
Fixpoint separated (t : nat) (bs : list burst) : Prop :=
  match bs with
  | [] => True
  | b :: bs' => t ≤ b.1.1 ∧ tight b.1.1 b.2 ∧ separated (lastCall b + wait) bs'
  end.

(** The debounced function is at rest at time [t]: no timer is pending, or
    the one that is pending is due by [t]. *)
Definition atRest (t : nat) (log : list (nat * A)) (st : state) : Prop :=
  calls st = log ∧
  (quiescent st ∨ ∃ t' a, armed t' a log st ∧ t' + wait ≤ t).

End Debounce.
End Debounce.

(** *** [throttle] (script.js, lines 53-62) *)

Module Throttle.
Section Throttle.
Context {A : Type}.
(** [throttle(func, limit)] *)
Variable limit : nat.

(** [inThrottle] is the captured variable ([undefined] is [false]); [timers]
    holds the due time of every pending [() => inThrottle = false]. *)
Record state := State {
  inThrottle : bool;
  timers : list nat;
  calls : list (nat * A)
}.

Definition init : state :=
  {| inThrottle := false; timers := []; calls := [] |}.

(** [() => inThrottle = false] *)
Definition release (st : state) : state :=
  {| inThrottle := false; timers := timers st; calls := calls st |}.

(** The body of [executedFunction(...args)], called at time [now]. *)
Definition executedFunction (now : nat) (args : A) (st : state) : state :=
  if inThrottle st then st
  else {| inThrottle := true;
          timers := timers st ++ [now + limit];
          calls := calls st ++ [(now, args)] |}.

Definition run_timers (now : nat) (st : state) : state :=
  let ready := filter (λ d, d ≤ now) (timers st) in
  let rest := filter (λ d, ¬ d ≤ now) (timers st) in
  foldl (λ s _, release s)
        {| inThrottle := inThrottle st; timers := rest; calls := calls st |}
        ready.

Definition call (st : state) (ev : nat * A) : state :=
  executedFunction ev.1 ev.2 (run_timers ev.1 st).

Definition simulate (evs : list (nat * A)) (st : state) : state :=
  foldl call st evs.

(** No window is open. *)
Definition idle (st : state) : Prop :=
  inThrottle st = false ∧ timers st = [].

(** Every call of [evs] falls in the window opened at [t]. *)
Definition within (t : nat) (evs : list (nat * A)) : Prop :=
  Forall (λ ev, t ≤ ev.1 ∧ ev.1 < t + limit) evs.

(** A window opened at time [t] is running: the flag is set and the one
    pending timer clears it at [t + limit]. *)
Definition closed (t : nat) (log : list (nat * A)) (st : state) : Prop :=
  inThrottle st = true ∧ timers st = [t + limit] ∧ calls st = log.

End Throttle.
End Throttle.

(** ** Numbers of the host language *)

Module Number.

(** A Number: a binary64 value. *)
Definition number : Type := spec_float.

Definition prec : Z := 53.
Definition emax : Z := 1024.

(** An integer literal, and the literals [1] and [2]. *)
Definition ofZ (n : Z) : number := binary_normalize prec emax n 0 false.
Definition one : number := ofZ 1.
Definition two : number := ofZ 2.

(** [a + b], [a - b], [a * b], [a / b] and [-a] *)
Definition add : number → number → number := SFadd prec emax.
Definition sub : number → number → number := SFsub prec emax.
Definition mul : number → number → number := SFmul prec emax.
Definition div : number → number → number := SFdiv prec emax.
Definition opp : number → number := SFopp.

(** [a <= b] and [a < b]: [false] when either side is [NaN]. *)
Definition leb : number → number → bool := SFleb.
Definition ltb : number → number → bool := SFltb.

(** [ToBoolean]: [0], [-0] and [NaN] are falsy. *)
Definition truthy (a : number) : bool :=
  match a with
  | S754_zero _ | S754_nan => false
  | _ => true
  end.

(** The rational that a finite Number stands for ([0] for the others). *)
Definition toQ (a : number) : Q :=
  match a with
  | S754_finite s m e =>
      (if s then Qopp else id) (inject_Z (Z.pos m) * Qpower 2 e)%Q
  | _ => 0%Q
  end.

(** The Number is a value of the format: its mantissa and its exponent are
    those of a normal or of a subnormal number. *)
Definition valid (a : number) : bool := valid_binary prec emax a.

Definition finite (a : number) : bool :=
  match a with
  | S754_zero _ | S754_finite _ _ _ => true
  | _ => false
  end.

(** The value of a finite Number in units of two to the power -1074, the
    smallest positive value of the format. *)
Definition scaled (a : number) : Z :=
  match a with
  | S754_finite s m e => (if s then Z.opp else id) (Z.pos m * 2 ^ (e + 1074))%Z
  | _ => 0%Z
  end.

End Number.

(** ** Geometry *)

(** *** [isInViewport] (script.js, lines 70-81)

    Lengths are CSS pixels and the threshold a fraction; both are Numbers,
    and the products are rounded as the host rounds them. *)

Module Geometry.
Import Number.

(** [element.getBoundingClientRect()] *)
Record DOMRect := { top : number; bottom : number; left : number; right : number }.

(** What the function reads of [window] and [document.documentElement]. *)
Record Viewport := {
  innerHeight : number; innerWidth : number;
  clientHeight : number; clientWidth : number
}.

(** [a || b] on Numbers *)
Definition or_else (a b : number) : number := if truthy a then a else b.

(** [const windowHeight = window.innerHeight || document.documentElement.clientHeight]
    and [windowWidth] *)
Definition windowHeight (vp : Viewport) : number :=
  or_else (innerHeight vp) (clientHeight vp).
Definition windowWidth (vp : Viewport) : number :=
  or_else (innerWidth vp) (clientWidth vp).

Definition isInViewport (rect : DOMRect) (vp : Viewport) (threshold : number) : bool :=
  leb (top rect) (mul (windowHeight vp) (sub one threshold)) &&
  leb (mul (windowHeight vp) threshold) (bottom rect) &&
  leb (left rect) (mul (windowWidth vp) (sub one threshold)) &&
  leb (mul (windowWidth vp) threshold) (right rect).

(** The length of the overlap of the intervals [[a, b]] and [[c, d]]. *)
Definition overlap (a b c d : Q) : Q :=
  Qmax 0 (Qmin b d - Qmax a c).

(** The specification's reading, relative to the element: on each axis the
    part of the box inside the viewport is at least [threshold] of the box.
    The reading is taken in exact arithmetic, on the values of the sides. *)
Definition overlapsByFractionOfBox (rect : DOMRect) (h w threshold : Q) : bool :=
  Qle_bool (threshold * (toQ (bottom rect) - toQ (top rect)))
           (overlap (toQ (top rect)) (toQ (bottom rect)) 0 h) &&
  Qle_bool (threshold * (toQ (right rect) - toQ (left rect)))
           (overlap (toQ (left rect)) (toQ (right rect)) 0 w).

(** The specification's reading, relative to the viewport: on each axis the
    part of the box inside the viewport is at least [threshold] of the
    viewport. *)
Definition overlapsByFractionOfViewport (rect : DOMRect) (h w threshold : Q) : bool :=
  Qle_bool (threshold * h) (overlap (toQ (top rect)) (toQ (bottom rect)) 0 h) &&
  Qle_bool (threshold * w) (overlap (toQ (left rect)) (toQ (right rect)) 0 w).

(** The four bounds that the function computes: the products
    [windowWidth * threshold], [windowWidth * (1 - threshold)] and the same
    for the height.  They delimit the central region of the viewport: the
    viewport shrunk on every side by [threshold] times its size. *)
Record Region := { lowX : number; highX : number; lowY : number; highY : number }.

Definition centralRegion (vp : Viewport) (threshold : number) : Region :=
  {| lowX := mul (windowWidth vp) threshold;
     highX := mul (windowWidth vp) (sub one threshold);
     lowY := mul (windowHeight vp) threshold;
     highY := mul (windowHeight vp) (sub one threshold) |}.

(** [a <= x <= b], in the order of [<=] on Numbers. *)
Definition between (a x b : number) : Prop := leb a x = true ∧ leb x b = true.

(** The box and the region from [low] to [high] share a point. *)
Definition meets (rect : DOMRect) (r : Region) : Prop :=
  ∃ x y, between (left rect) x (right rect) ∧ between (top rect) y (bottom rect) ∧
         between (lowX r) x (highX r) ∧ between (lowY r) y (highY r).

(** The box contains every point of the rectangle from [high] to [low]:
    what is left of the region when its bounds have crossed. *)
Definition covers (rect : DOMRect) (r : Region) : Prop :=
  ∀ x y, between (highX r) x (lowX r) → between (highY r) y (lowY r) →
         between (left rect) x (right rect) ∧ between (top rect) y (bottom rect).

End Geometry.

(** ** Strings and regular expressions of the host language *)

Module JS.

(** A string value: its UTF-16 code units. *)
Definition jsstring : Type := list N.

(** A literal of the script (ASCII). *)
Definition lit (s : string) : jsstring :=
  N_of_ascii <$> list_ascii_of_string s.

(** The code units that [String.prototype.trim] removes and that [\s]
    matches: WhiteSpace and LineTerminator of ECMAScript. *)
Definition isWhiteSpace (c : N) : bool :=
  ((c =? 9) || (c =? 10) || (c =? 11) || (c =? 12) || (c =? 13) ||
   (c =? 32) || (c =? 160) || (c =? 5760) ||
   ((8192 <=? c) && (c <=? 8202)) ||
   (c =? 8232) || (c =? 8233) || (c =? 8239) || (c =? 8287) ||
   (c =? 12288) || (c =? 65279))%N.

Fixpoint trimStart (s : jsstring) : jsstring :=
  match s with
  | [] => []
  | c :: s' => if isWhiteSpace c then trimStart s' else s
  end.

Definition trimEnd (s : jsstring) : jsstring :=
  rev (trimStart (rev s)).

(** [s.trim()] *)
Definition trim (s : jsstring) : jsstring :=
  trimEnd (trimStart s).

(** Regular expressions without flags, over code units; a character class
    is the predicate it denotes. *)
Inductive regex : Type :=
| Void
| Eps
| Class (p : N → bool)
| Seq (r1 r2 : regex)
| Alt (r1 r2 : regex)
| Star (r : regex).

(** [r+], [r?] and [r{0,n}] *)
Definition plus (r : regex) : regex := Seq r (Star r).
Definition opt (r : regex) : regex := Alt r Eps.
Fixpoint upto (n : nat) (r : regex) : regex :=
  match n with
  | O => Eps
  | S n' => opt (Seq r (upto n' r))
  end.

Fixpoint nullable (r : regex) : bool :=
  match r with
  | Void => false
  | Eps => true
  | Class _ => false
  | Seq r1 r2 => nullable r1 && nullable r2
  | Alt r1 r2 => nullable r1 || nullable r2
  | Star _ => true
  end.

(** The derivative of [r] by the code unit [c]. *)
Fixpoint deriv (c : N) (r : regex) : regex :=
  match r with
  | Void => Void
  | Eps => Void
  | Class p => if p c then Eps else Void
  | Seq r1 r2 =>
      if nullable r1 then Alt (Seq (deriv c r1) r2) (deriv c r2)
      else Seq (deriv c r1) r2
  | Alt r1 r2 => Alt (deriv c r1) (deriv c r2)
  | Star r' => Seq (deriv c r') (Star r')
  end.

(** [/^r$/.test(s)]: the whole of [s] matches [r]. *)
Fixpoint test (r : regex) (s : jsstring) : bool :=
  match s with
  | [] => nullable r
  | c :: s' => test (deriv c r) s'
  end.

(** The strings a regular expression denotes. *)
Inductive lang : regex → jsstring → Prop :=
| lang_eps : lang Eps []
| lang_class p c : p c = true → lang (Class p) [c]
| lang_seq r1 r2 s1 s2 : lang r1 s1 → lang r2 s2 → lang (Seq r1 r2) (s1 ++ s2)
| lang_alt_l r1 r2 s : lang r1 s → lang (Alt r1 r2) s
| lang_alt_r r1 r2 s : lang r2 s → lang (Alt r1 r2) s
| lang_star_nil r : lang (Star r) []
| lang_star_app r s1 s2 : lang r s1 → lang (Star r) s2 → lang (Star r) (s1 ++ s2).

End JS.

(** ** Form validation (script.js, lines 355-529) *)

Module FormValidator.
Import JS.

(** The part of a DOM element that the validator touches.  [descendants]
    lists the ids of the elements that lie inside the element: an assignment
    to [textContent] removes them from the document. *)
Record Element := {
  classList : gset string;
  attributes : gmap string string;
  textContent : string;
  descendants : list string
}.

(** An [input], [select] or [textarea] of a form.  [focusable] says that
    [focus()] moves the focus to the control: the host leaves the focus where
    it is when the control is disabled, hidden or not rendered. *)
Record Field := {
  name : string;
  type : string;
  value : jsstring;
  defaultValue : jsstring;
  focusable : bool;
  node : Element
}.

(** The code units [@], [.], [+], [-], [(] and [)]. *)
Definition c_at : N := 64.
Definition c_dot : N := 46.
Definition c_plus : N := 43.
Definition c_hyphen : N := 45.
Definition c_lparen : N := 40.
Definition c_rparen : N := 41.

(** [[^\s@]] *)
Definition notSpaceAt (c : N) : bool :=
  negb (isWhiteSpace c) && negb (c =? c_at)%N.
(** [\d] and [[1-9]] *)
Definition digit (c : N) : bool := ((48 <=? c) && (c <=? 57))%N.
Definition digit19 (c : N) : bool := ((49 <=? c) && (c <=? 57))%N.

(** [/^[^\s@]+@[^\s@]+\.[^\s@]+$/] *)
Definition emailRegex : regex :=
  Seq (plus (Class notSpaceAt))
      (Seq (Class (N.eqb c_at))
           (Seq (plus (Class notSpaceAt))
                (Seq (Class (N.eqb c_dot))
                     (plus (Class notSpaceAt))))).

(** [/^[\+]?[1-9][\d]{0,15}$/] *)
Definition phoneRegex : regex :=
  Seq (opt (Class (N.eqb c_plus)))
      (Seq (Class digit19) (upto 15 (Class digit))).

(** [[\s\-\(\)]] and [value.replace(/[\s\-\(\)]/g, '')] *)
Definition separator (c : N) : bool :=
  isWhiteSpace c || (c =? c_hyphen)%N || (c =? c_lparen)%N || (c =? c_rparen)%N.
Definition stripSeparators (s : jsstring) : jsstring :=
  List.filter (λ c, negb (separator c)) s.

Definition requiredMessage : string := "This field is required.".
Definition emailMessage : string := "Please enter a valid email address.".
Definition phoneMessage : string := "Please enter a valid phone number.".

Definition hasAttribute (f : Field) (a : string) : bool :=
  bool_decide (is_Some (attributes (node f) !! a)).

Definition setNode (f : Field) (e : Element) : Field :=
  {| name := name f; type := type f; value := value f;
     defaultValue := defaultValue f; focusable := focusable f; node := e |}.

(** The id of the element that displays the field's error:
    [`${field.name}-error`]. *)
Definition errorId (f : Field) : string := name f +:+ "-error".

(** [document.getElementById(id).textContent = text], for the element [e]
    that the document holds under [id]: the elements inside [e] leave the
    document, and [e] is left with the text alone.  [doc] maps an id to the
    element that [document.getElementById] finds. *)
Definition setTextContent (id : string) (e : Element) (text : string)
    (doc : gmap string Element) : gmap string Element :=
  <[id := {| classList := classList e; attributes := attributes e;
             textContent := text; descendants := [] |}]>
    (foldr delete doc (descendants e)).

(** [document.getElementById(id).classList.add(c)] and [remove(c)] *)
Definition addClass (id c : string) (doc : gmap string Element) : gmap string Element :=
  match doc !! id with
  | Some e => <[id := {| classList := classList e ∪ {[c]}; attributes := attributes e;
                         textContent := textContent e;
                         descendants := descendants e |}]> doc
  | None => doc
  end.

Definition removeClass (id c : string) (doc : gmap string Element)
  : gmap string Element :=
  match doc !! id with
  | Some e => <[id := {| classList := classList e ∖ {[c]}; attributes := attributes e;
                         textContent := textContent e;
                         descendants := descendants e |}]> doc
  | None => doc
  end.

(** [clearFieldError(field)] *)
Definition clearFieldError (f : Field) (doc : gmap string Element)
  : Field * gmap string Element :=
  let f' := setNode f {| classList := classList (node f) ∖ {["error"]};
                         attributes := delete "aria-invalid" (attributes (node f));
                         textContent := textContent (node f);
                         descendants := descendants (node f) |} in
  match doc !! errorId f with
  | Some e =>
      (f', removeClass (errorId f) "visible" (setTextContent (errorId f) e "" doc))
  | None => (f', doc)
  end.

(** [showFieldError(field, message)] *)
Definition showFieldError (f : Field) (message : string) (doc : gmap string Element)
  : Field * gmap string Element :=
  let f' := setNode f {| classList := classList (node f) ∪ {["error"]};
                         attributes := <["aria-invalid" := "true"]> (attributes (node f));
                         textContent := textContent (node f);
                         descendants := descendants (node f) |} in
  match doc !! errorId f with
  | Some e =>
      (f', addClass (errorId f) "visible" (setTextContent (errorId f) e message doc))
  | None => (f', doc)
  end.

(** The [if / else if] chain of [validateField]: the pair
    [(isValid, errorMessage)] it ends with. *)
Definition verdict (f : Field) : bool * string :=
  let value := trim (value f) in
  let required := hasAttribute f "required" in
  if required && bool_decide (value = []) then (false, requiredMessage)
  else if bool_decide (type f = "email") && negb (bool_decide (value = [])) then
    if negb (test emailRegex value) then (false, emailMessage) else (true, "")
  else if bool_decide (type f = "tel") && negb (bool_decide (value = [])) then
    if negb (test phoneRegex (stripSeparators value)) then (false, phoneMessage)
    else (true, "")
  else (true, "").

(** [validateField(field)] *)
Definition validateField (f : Field) (doc : gmap string Element)
  : bool * Field * gmap string Element :=
  let '(isValid, errorMessage) := verdict f in
  let '(f1, doc1) := clearFieldError f doc in
  if negb isValid then
    let '(f2, doc2) := showFieldError f1 errorMessage doc1 in
    (false, f2, doc2)
  else (true, f1, doc1).

(** The message that the page displays for the field, if it has an element
    for it. *)
Definition shownMessage (f : Field) (doc : gmap string Element) : option string :=
  textContent <$> doc !! errorId f.

(** The field carries the invalid marks: the [error] class and
    [aria-invalid="true"]. *)
Definition markedInvalid (f : Field) : Prop :=
  "error" ∈ classList (node f) ∧ attributes (node f) !! "aria-invalid" = Some "true".

(** *** The rules as the specification words them *)

(** A non-empty run of code units that are neither white space nor [@]. *)
Definition plain (s : jsstring) : Prop :=
  s ≠ [] ∧ Forall (λ c, notSpaceAt c = true) s.

(** [local@domain.tld] *)
Definition emailShape (s : jsstring) : Prop :=
  ∃ l d t, s = l ++ c_at :: d ++ c_dot :: t ∧ plain l ∧ plain d ∧ plain t.

(** An optional [+], a digit from 1 to 9, then at most fifteen digits. *)
Definition phoneShape (s : jsstring) : Prop :=
  ∃ sign first rest,
    s = sign ++ first :: rest ∧ (sign = [] ∨ sign = [c_plus]) ∧
    digit19 first = true ∧ Forall (λ c, digit c = true) rest ∧ length rest ≤ 15.

Inductive Rule : Type := RequiredRule | EmailRule | TelRule.


Definition message (r : Rule) : string :=
  match r with
  | RequiredRule => requiredMessage
  | EmailRule => emailMessage
  | TelRule => phoneMessage
  end.



(** The page displays [m] in the error element of the field. *)
Definition displays (doc : gmap string Element) (f : Field) (m : string) : Prop :=
  ∃ e, doc !! errorId f = Some e ∧ textContent e = m ∧ "visible" ∈ classList e.

(** The field carries no invalid mark. *)
Definition unmarked (f : Field) : Prop :=
  ("error" ∉ classList (node f)) ∧ attributes (node f) !! "aria-invalid" = None.

(** *** [handleSubmit] (script.js, lines 451-496) *)

(** The submit control: [innerHTML] is the markup that the property
    returns. *)
Record Button := { disabled : bool; innerHTML : string }.

(** A banner created by [showSuccessMessage] or [showErrorMessage]. *)
Record Alert := { className : string; alertText : string; role : string }.

(** A form and what its handlers reach of the page.  The inputs and the
    submit control lie outside the error elements, and no other element of
    the form carries the class [error].  [attached] says that
    [form.parentNode] is an element; [resetShadowed] says that a control of
    the form is named, or has the id, [reset], so that [form.reset] is that
    control and not the method; [alerts] are the banners inserted before the
    form; [focused] is the index of the input that holds the focus, if one
    does; [disabledWrites] is the history of the assignments to
    [submitBtn.disabled] (kept for the proofs, it has no counterpart in the
    page). *)
Record Page := {
  inputs : list Field;
  document : gmap string Element;
  submitBtn : option Button;
  attached : bool;
  resetShadowed : bool;
  alerts : list Alert;
  focused : option nat;
  console : list string;
  disabledWrites : list bool
}.

(** How an awaited promise settles. *)
Inductive settled : Type := Fulfilled | Rejected.

(** [new Promise(resolve => setTimeout(resolve, 2000))] always fulfils. *)
Definition simulatedCall : settled := Fulfilled.

(** How a run of [handleSubmit] ends: the early [return] on an invalid
    field, the end of the [try] block, the end of the [catch] block, or an
    exception thrown by the [catch] block itself. *)
Inductive completion : Type := Aborted | Succeeded | Failed | Crashed.

Definition quote : string := String (ascii_of_nat 34) EmptyString.

(** The markup of the busy state. *)
Definition spinner : string :=
  "<i class=" +:+ quote +:+ "fas fa-spinner fa-spin" +:+ quote +:+
  " aria-hidden=" +:+ quote +:+ "true" +:+ quote +:+ "></i> Sending...".

Definition successAlert : Alert :=
  {| className := "alert alert-success";
     alertText := "Thank you! Your message has been sent successfully.";
     role := "alert" |}.

Definition errorAlert (message : string) : Alert :=
  {| className := "alert alert-error"; alertText := message; role := "alert" |}.

Definition submissionError : string :=
  "There was an error sending your message. Please try again.".

(** [inputs.forEach(input => { if (!this.validateField(input)) isFormValid = false; })] *)
Fixpoint validateAll (fs : list Field) (doc : gmap string Element)
  : bool * list Field * gmap string Element :=
  match fs with
  | [] => (true, [], doc)
  | f :: fs' =>
      let '(v, f', doc1) := validateField f doc in
      let '(ok, fs'', doc2) := validateAll fs' doc1 in
      (v && ok, f' :: fs'', doc2)
  end.

(** [form.querySelector('.error')]: the first input that carries the class,
    with its index. *)
Definition firstError (fs : list Field) : option (nat * Field) :=
  list_find (λ f, "error" ∈ classList (node f)) fs.

(** [firstError.focus()] on the input of index [i], when the focus is on
    [current]. *)
Definition focus (i : nat) (f : Field) (current : option nat) : option nat :=
  if focusable f then Some i else current.

(** [form.reset()], on one control *)
Definition reset (f : Field) : Field :=
  {| name := name f; type := type f; value := defaultValue f;
     defaultValue := defaultValue f; focusable := focusable f; node := node f |}.

Section Submit.
(** The text of a fragment of markup, as [textContent] returns it. *)
Variable textContentOf : string → string.
(** The markup that [innerHTML] returns after the assignment of a string to
    it: the string parsed as a fragment and serialised again. *)
Variable markupOf : string → string.

(** [form.parentNode.insertBefore(banner, form)]: a [TypeError] ([None])
    when the form has no parent. *)
Definition insertBefore (a : Alert) (p : Page) : option Page :=
  if attached p then
    Some {| inputs := inputs p; document := document p; submitBtn := submitBtn p;
            attached := attached p; resetShadowed := resetShadowed p;
            alerts := alerts p ++ [a];
            focused := focused p; console := console p;
            disabledWrites := disabledWrites p |}
  else None.

Definition showSuccessMessage (p : Page) : option Page :=
  insertBefore successAlert p.

Definition showErrorMessage (message : string) (p : Page) : option Page :=
  insertBefore (errorAlert message) p.

(** The [catch] block. *)
Definition catch (p : Page) : Page * completion :=
  let p1 := {| inputs := inputs p; document := document p; submitBtn := submitBtn p;
               attached := attached p; resetShadowed := resetShadowed p;
               alerts := alerts p;
               focused := focused p;
               console := console p ++ ["Form submission error:"];
               disabledWrites := disabledWrites p |} in
  match showErrorMessage submissionError p1 with
  | Some p2 => (p2, Failed)
  | None => (p1, Crashed)
  end.

(** [handleSubmit] up to its [await]: [inr originalText] when the run is
    suspended on the awaited promise, [inl c] when it ended with [c]. *)
Definition handleSubmit_begin (p : Page) : Page * (completion + string) :=
  let '(isFormValid, fs, doc) := validateAll (inputs p) (document p) in
  if negb isFormValid then
    ({| inputs := fs; document := doc; submitBtn := submitBtn p;
        attached := attached p; resetShadowed := resetShadowed p;
        alerts := alerts p;
        focused := match firstError fs with
                   | Some (i, f) => focus i f (focused p)
                   | None => focused p
                   end;
        console := console p; disabledWrites := disabledWrites p |},
     inl Aborted)
  else
    let p1 := {| inputs := fs; document := doc; submitBtn := submitBtn p;
                 attached := attached p; resetShadowed := resetShadowed p;
                 alerts := alerts p;
                 focused := focused p; console := console p;
                 disabledWrites := disabledWrites p |} in
    match submitBtn p1 with
    | None =>
        (* [submitBtn.textContent] on [null] *)
        let '(p2, c) := catch p1 in (p2, inl c)
    | Some b =>
        let originalText := textContentOf (innerHTML b) in
        ({| inputs := fs; document := doc;
            submitBtn := Some {| disabled := true; innerHTML := markupOf spinner |};
            attached := attached p; resetShadowed := resetShadowed p;
            alerts := alerts p;
            focused := focused p; console := console p;
            disabledWrites := disabledWrites p ++ [true] |},
         inr originalText)
    end.

(** [handleSubmit] from the moment the awaited promise settles as [api]. *)
Definition handleSubmit_resume (api : settled) (originalText : string) (p : Page)
  : Page * completion :=
  match api with
  | Rejected => catch p
  | Fulfilled =>
      match showSuccessMessage p with
      | None => catch p
      | Some p1 =>
          if resetShadowed p1 then
            (* [form.reset()]: [form.reset] is not a function *)
            catch p1
          else
            ({| inputs := reset <$> inputs p1; document := document p1;
                submitBtn := Some {| disabled := false;
                                     innerHTML := markupOf originalText |};
                attached := attached p1; resetShadowed := resetShadowed p1;
                alerts := alerts p1;
                focused := focused p1; console := console p1;
                disabledWrites := disabledWrites p1 ++ [false] |},
             Succeeded)
      end
  end.

(** A whole run in which the awaited promise settles as [api]. *)
Definition handleSubmit_with (api : settled) (p : Page) : Page * completion :=
  match handleSubmit_begin p with
  | (p1, inl c) => (p1, c)
  | (p1, inr originalText) => handleSubmit_resume api originalText p1
  end.

(** [handleSubmit(form)] as written: the awaited promise is the simulated
    call. *)
Definition handleSubmit (p : Page) : Page * completion :=
  handleSubmit_with simulatedCall p.

End Submit.

(** Every field of the form validates. *)
Definition allValid (p : Page) : Prop :=
  (validateAll (inputs p) (document p)).1.1 = true.

(** The submit control is disabled. *)
Definition submitDisabled (p : Page) : Prop :=
  disabled <$> submitBtn p = Some true.

(** The number of times a run re-enabled the submit control. *)
Definition reenabled (before after : Page) : nat :=
  length (List.filter negb (drop (length (disabledWrites before)) (disabledWrites after))).

End FormValidator.

(** ** FAQ accordion (script.js, lines 535-579) *)

Module FAQ.

(** A [.faq-question]: its [aria-expanded] attribute. *)
Record Question := { ariaExpanded : option string }.
(** A [.faq-answer]: whether its class list holds [active]. *)
Record Answer := { active : bool }.
(** A [.faq-item] with what [querySelector] finds in it ([None] is [null]). *)
Record Item := { question : option Question; answer : option Answer }.

Definition collapsed (it : Item) : Item :=
  {| question := Some {| ariaExpanded := Some "false" |};
     answer := Some {| active := false |} |}.

(** The loop [this.faqItems.forEach(...)] of [toggleFAQ], from the item of
    index [j] on; [activated] is the index of the item whose question was
    passed.  The boolean is [false] when the loop ended in a [TypeError]
    (a method call on [null]); the items already visited keep their
    changes. *)
Fixpoint closeOthers (activated j : nat) (items : list Item) : list Item * bool :=
  match items with
  | [] => ([], true)
  | it :: rest =>
      if decide (j = activated) then
        let '(rest', ok) := closeOthers activated (S j) rest in (it :: rest', ok)
      else
        match question it, answer it with
        | None, _ => (it :: rest, false)
        | Some _, None =>
            ({| question := Some {| ariaExpanded := Some "false" |};
                answer := None |} :: rest, false)
        | Some _, Some _ =>
            let '(rest', ok) := closeOthers activated (S j) rest in
            (collapsed it :: rest', ok)
        end
  end.

(** [String(b)] *)
Definition ofBool (b : bool) : string := if b then "true" else "false".

(** [toggleFAQ(question, answer)] for the question and the answer of the
    item of index [i].  [init] binds the handlers only on an item that has
    both, so nothing happens on another index. *)
Definition toggleFAQ (i : nat) (items : list Item) : list Item * bool :=
  match items !! i with
  | Some {| question := Some q; answer := Some _ |} =>
      let isOpen := bool_decide (ariaExpanded q = Some "true") in
      let '(items1, ok) := closeOthers i 0 items in
      if ok then
        (<[i := {| question := Some {| ariaExpanded := Some (ofBool (negb isOpen)) |};
                   answer := Some {| active := negb isOpen |} |}]> items1, true)
      else (items1, false)
  | _ => (items, true)
  end.

(** A sequence of activations. *)
Definition activate (items : list Item) (i : nat) : list Item :=
  (toggleFAQ i items).1.

Definition activations (clicks : list nat) (items : list Item) : list Item :=
  foldl activate items clicks.

(** The item is in the expanded state: its question says so. *)
Definition expanded (it : Item) : Prop :=
  ∃ q, question it = Some q ∧ ariaExpanded q = Some "true".

(** The answer of the item is displayed. *)
Definition shown (it : Item) : Prop :=
  ∃ a, answer it = Some a ∧ active a = true.

Definition wellFormed (it : Item) : Prop :=
  is_Some (question it) ∧ is_Some (answer it).

(** At most one item is expanded. *)
Definition atMostOneExpanded (items : list Item) : Prop :=
  ∀ j k it1 it2,
    items !! j = Some it1 → items !! k = Some it2 →
    expanded it1 → expanded it2 → j = k.

(** The question and the answer of an activated item after the toggle. *)
Definition toggled (it : Item) : Item :=
  let isOpen := bool_decide ((question it ≫= ariaExpanded) = Some "true") in
  {| question := Some {| ariaExpanded := Some (ofBool (negb isOpen)) |};
     answer := Some {| active := negb isOpen |} |}.

End FAQ.

(** ** Mobile menu of the navigation (script.js, lines 223-261) *)

Module Navigation.

(** Where the keyboard focus is. *)
Inductive Focus : Type :=
| Elsewhere
| OnMenuButton
| OnMobileLink (i : nat).

(** The controller and the parts of the page its menu operations touch:
    the flag [isMenuOpen]; whether the class lists of the panel and of the
    button hold [active]; the [aria-expanded] attribute of the button;
    [document.body.style.overflow]; the focused element; the number of
    [.mobile-link] elements inside the panel; the number of [keydown]
    listeners that [setFocusTrap] has attached to the panel. *)
Record state := {
  isMenuOpen : bool;
  menuActive : bool;
  buttonActive : bool;
  ariaExpanded : option string;
  overflow : string;
  activeElement : Focus;
  mobileLinks : nat;
  focusTraps : nat
}.

Definition openMobileMenu (st : state) : state :=
  {| isMenuOpen := true;
     menuActive := true;
     buttonActive := true;
     ariaExpanded := Some "true";
     overflow := "hidden";
     (* [if (firstLink) firstLink.focus()] *)
     activeElement := if decide (0 < mobileLinks st) then OnMobileLink 0
                      else activeElement st;
     mobileLinks := mobileLinks st;
     focusTraps := S (focusTraps st) |}.

Definition closeMobileMenu (st : state) : state :=
  {| isMenuOpen := false;
     menuActive := false;
     buttonActive := false;
     ariaExpanded := Some "false";
     overflow := "";
     activeElement := OnMenuButton;
     mobileLinks := mobileLinks st;
     focusTraps := focusTraps st |}.

Definition toggleMobileMenu (st : state) : state :=
  if isMenuOpen st then closeMobileMenu st else openMobileMenu st.

(** The operations on the menu, and the handlers of [bindEvents] that close
    it: the Escape key and a click outside the panel and the button. *)
Inductive operation : Type := Open | Close | Toggle | EscapeKey | OutsideClick.

Definition perform (st : state) (o : operation) : state :=
  match o with
  | Open => openMobileMenu st
  | Close => closeMobileMenu st
  | Toggle => toggleMobileMenu st
  | EscapeKey | OutsideClick => if isMenuOpen st then closeMobileMenu st else st
  end.

Definition performAll (os : list operation) (st : state) : state :=
  foldl perform st os.



(** The controller as its constructor leaves it, on a page whose body has
    no inline [overflow]. *)
Definition initial (links : nat) (focus : Focus) : state :=
  {| isMenuOpen := false; menuActive := false; buttonActive := false;
     ariaExpanded := None; overflow := ""; activeElement := focus;
     mobileLinks := links; focusTraps := 0 |}.

End Navigation.

(** ** Lazy image loader (script.js, lines 290-349) *)

Module LazyLoader.

(** An [IntersectionObserverEntry]; images are named by their index in
    [this.images]. *)
Record Entry := { target : nat; isIntersecting : bool }.

(** [observed] are the targets of [this.observer]; [lazy] the images with
    the class [lazy-image]; [loads] the images for which [loadImage] has
    started a load (one per [new Image()] whose [src] was set), in order;
    [loaded] the images with the class [loaded]. *)
Record state := {
  observed : gset nat;
  lazy : gset nat;
  loads : list nat;
  loaded : gset nat
}.

(** [loadImage(img)]: the load starts; it completes with [onload]. *)
Definition loadImage (img : nat) (st : state) : state :=
  {| observed := observed st; lazy := lazy st;
     loads := loads st ++ [img]; loaded := loaded st |}.

(** [imageLoader.onload] *)
Definition onload (img : nat) (st : state) : state :=
  {| observed := observed st; lazy := lazy st;
     loads := loads st; loaded := loaded st ∪ {[img]} |}.

(** [this.observer.unobserve(img)] *)
Definition unobserve (img : nat) (st : state) : state :=
  {| observed := observed st ∖ {[img]}; lazy := lazy st;
     loads := loads st; loaded := loaded st |}.

(** [handleIntersect(entries)] *)
Definition handleIntersect (st : state) (entries : list Entry) : state :=
  foldl (λ s entry,
           if isIntersecting entry
           then unobserve (target entry) (loadImage (target entry) s)
           else s)
        st entries.

Definition loadAllImages (images : list nat) (st : state) : state :=
  foldl (λ s img, loadImage img s) st images.

(** [init()]; [supported] is ['IntersectionObserver' in window]. *)
Definition init (supported : bool) (images : list nat) : state :=
  if supported then
    {| observed := list_to_set images; lazy := list_to_set images;
       loads := []; loaded := ∅ |}
  else
    loadAllImages images {| observed := ∅; lazy := ∅; loads := []; loaded := ∅ |}.

(** The callbacks of one observer, batch after batch. *)
Definition deliver (batches : list (list Entry)) (st : state) : state :=
  foldl handleIntersect st batches.


(** The images that a batch reports as intersecting. *)
Definition intersecting (b : list Entry) : list nat :=
  target <$> List.filter isIntersecting b.


(** The number of loads started for an image. *)
Definition attempts (img : nat) (st : state) : nat :=
  length (List.filter (Nat.eqb img) (loads st)).


End LazyLoader.

(** ** Smooth scrolling (script.js, lines 89-111) *)

(** *** The easing curve in exact arithmetic

    The curve that [ease] computes, over the rationals: what the function
    returns when no operation rounds. *)

Module SmoothScroll.
Local Open Scope Q_scope.

(** [const ease = (t, b, c, d) => { t /= d / 2; if (t < 1) return c / 2 * t * t + b;
    t--; return -c / 2 * (t * (t - 2) - 1) + b; }] *)
Definition ease (t b c d : Q) : Q :=
  let t1 := t / (d / 2) in
  if Qle_bool 1 t1 then
    let t2 := t1 - 1 in
    - c / 2 * (t2 * (t2 - 2) - 1) + b
  else c / 2 * t1 * t1 + b.

End SmoothScroll.

(** *** [smoothScrollTo] on Numbers

    The function as the host runs it: positions and times are Numbers and
    every operation rounds. *)

Module ScrollAnimation.
Import Number.

(** [const ease = (t, b, c, d) => { t /= d / 2; if (t < 1) return c / 2 * t * t + b;
    t--; return -c / 2 * (t * (t - 2) - 1) + b; }] *)
Definition ease (t b c d : number) : number :=
  let t1 := div t (div d two) in
  if ltb t1 one then add (mul (mul (div c two) t1) t1) b
  else
    let t2 := sub t1 one in
    add (mul (div (opp c) two) (sub (mul t2 (sub t2 two)) one)) b.

(** The constants of one call of [smoothScrollTo]. *)
Record scroll := { startPosition : number; distance : number; duration : number }.

(** The variable of the call and what it does to the page: [startTime]
    ([None] is [null]); [position], the last argument passed to
    [window.scrollTo(0, _)]; [frames], the number of times [animation] ran;
    [requested], whether a call of [animation] is requested for the next
    frame. *)
Record state := {
  startTime : option number;
  position : number;
  frames : nat;
  requested : bool
}.

(** [smoothScrollTo(element, offset, duration)] up to its
    [requestAnimationFrame(animation)]; [offsetTop] is [element.offsetTop]
    and [pageYOffset] is [window.pageYOffset] at the call. *)
Definition smoothScrollTo (offsetTop offset duration pageYOffset : number)
  : scroll * state :=
  let targetPosition := sub offsetTop offset in
  let startPosition := pageYOffset in
  let distance := sub targetPosition startPosition in
  ({| startPosition := startPosition; distance := distance; duration := duration |},
   {| startTime := None; position := pageYOffset; frames := 0; requested := true |}).

(** [animation(currentTime)] *)
Definition animation (k : scroll) (currentTime : number) (st : state) : state :=
  let start := match startTime st with None => currentTime | Some s => s end in
  let timeElapsed := sub currentTime start in
  {| startTime := Some start;
     position := ease timeElapsed (startPosition k) (distance k) (duration k);
     frames := S (frames st);
     requested := ltb timeElapsed (duration k) |}.

(** The host runs [animation] at the times [ticks] of its successive frames,
    as long as a frame is requested. *)
Fixpoint play (k : scroll) (ticks : list number) (st : state) : state :=
  match ticks with
  | [] => st
  | tick :: ticks' =>
      if requested st then play k ticks' (animation k tick st) else st
  end.

End ScrollAnimation.

(** ** Focus trap (script.js, lines 117-140) *)

Module FocusTrap.

(** What the handler reads of a [keydown] event. *)
Record KeyEvent := { key : string; keyCode : nat; shiftKey : bool }.

(** Elements are named by numbers.  [activeElement] is
    [document.activeElement] ([None] is [null]); [defaultPrevented] says that
    [e.preventDefault()] was called. *)
Record state := { activeElement : option nat; defaultPrevented : bool }.

(** [focusableElements[0]] and
    [focusableElements[focusableElements.length - 1]] ([None] is
    [undefined]). *)
Definition firstElement (focusable : list nat) : option nat := head focusable.
Definition lastElement (focusable : list nat) : option nat := last focusable.

(** [document.activeElement === x]: never true of [null] and [undefined]. *)
Definition same (active x : option nat) : bool :=
  match active, x with
  | Some a, Some b => bool_decide (a = b)
  | _, _ => false
  end.

(** The listener that [setFocusTrap(element)] attaches; [focusable] is the
    list that [querySelectorAll] returned when the trap was set. *)
Definition onKeydown (focusable : list nat) (e : KeyEvent) (st : state) : state :=
  let isTabPressed := bool_decide (key e = "Tab") || (keyCode e =? 9) in
  if negb isTabPressed then st
  else if shiftKey e then
    if same (activeElement st) (firstElement focusable)
    then {| activeElement := lastElement focusable; defaultPrevented := true |}
    else st
  else
    if same (activeElement st) (lastElement focusable)
    then {| activeElement := firstElement focusable; defaultPrevented := true |}
    else st.

(** The element after [x] in the list, if any. *)
Fixpoint next (order : list nat) (x : nat) : option nat :=
  match order with
  | a :: (b :: _) as rest => if decide (a = x) then Some b else next rest x
  | _ => None
  end.

(** Sequential focus navigation of the host, the default action of the Tab
    key: the focus moves to the next element of [order], to the previous one
    with Shift, and leaves the page at either end. *)
Definition defaultAction (order : list nat) (e : KeyEvent) (st : state) : state :=
  if defaultPrevented st then st
  else
    {| activeElement :=
         active ← activeElement st;
         if shiftKey e then next (reverse order) active else next order active;
       defaultPrevented := false |}.

(** A press of the Tab key on an element of the container, on which [n]
    traps were set: the listeners run, then the default action. *)
Definition pressTab (n : nat) (focusable order : list nat) (e : KeyEvent)
    (active : nat) : option nat :=
  activeElement
    (defaultAction order e
       (Nat.iter n (onKeydown focusable e)
          {| activeElement := Some active; defaultPrevented := false |})).

End FocusTrap.

(** ** Openings and closings of the mobile menu *)

Module MenuCycles.

(** The menu opened and closed [n] times with its button. *)
Definition cycles (n : nat) : list Navigation.operation :=
  concat (replicate n [Navigation.Toggle; Navigation.Toggle]).

End MenuCycles.

(** ** Back-to-top control (script.js, lines 585-631) *)

Module BackToTop.

(** [CONFIG.BACK_TO_TOP_THRESHOLD] and [CONFIG.THROTTLE_DELAY] *)
Definition BACK_TO_TOP_THRESHOLD : Q := 300.
Definition THROTTLE_DELAY : nat := 16.

(** [visible]: the class list of the button holds [visible]. *)
Record state := { visible : bool }.

(** [handleScroll()], when [window.pageYOffset] is [scrollY]. *)
Definition handleScroll (scrollY : Q) (st : state) : state :=
  if negb (Qle_bool scrollY BACK_TO_TOP_THRESHOLD)
  then {| visible := true |}
  else {| visible := false |}.

(** The scroll listener of [bindEvents]: [handleScroll] behind
    [throttle(..., CONFIG.THROTTLE_DELAY)].  A scroll event is the pair of
    its time and of the position of the page at that time; the control ends
    as the calls that the throttle let through leave it. *)
Definition afterScrolls (events : list (nat * Q)) (st : state) : state :=
  foldl (λ s c, handleScroll c.2 s) st
        (Throttle.calls (Throttle.simulate THROTTLE_DELAY events Throttle.init)).

End BackToTop.

(** ** Scroll-triggered animation (script.js, lines 637-668) *)

Module AnimationObserver.

(** [observed] are the targets of the observer, [revealed] the elements
    whose class list holds [fade-in]. *)
Record state := { observed : gset nat; revealed : gset nat }.

(** [init()]; [supported] is ['IntersectionObserver' in window]. *)
Definition init (supported : bool) (elements : list nat) : state :=
  if supported
  then {| observed := list_to_set elements; revealed := ∅ |}
  else {| observed := ∅; revealed := ∅ |}.

(** [handleIntersect(entries)] *)
Definition handleIntersect (st : state) (entries : list LazyLoader.Entry) : state :=
  foldl (λ s entry,
           if LazyLoader.isIntersecting entry
           then {| observed := observed s ∖ {[LazyLoader.target entry]};
                   revealed := revealed s ∪ {[LazyLoader.target entry]} |}
           else s)
        st entries.

Definition deliver (batches : list (list LazyLoader.Entry)) (st : state) : state :=
  foldl handleIntersect st batches.

End AnimationObserver.

(** ** Application (script.js, lines 743-825) *)

Module App.

(** The controllers that [init] constructs. *)
Inductive controller : Type :=
| Navigation | LazyLoader | FormValidator | FAQ | BackToTop
| AnimationObserver | PerformanceMonitor.

(** [modules] is [this.modules]; [handlers] says that [setupErrorHandling]
    ran, [announcer] that [setupAccessibility] created the live region;
    [console] is the log. *)
Record state := {
  modules : gmap string controller;
  handlers : bool;
  announcer : bool;
  console : list string
}.

Definition initial : state :=
  {| modules := ∅; handlers := false; announcer := false; console := [] |}.

(** The [this.modules.set(...)] statements of the [try] block in their
    order; the last one stands under the test of the host name. *)
Definition plan (hostname : string) : list (string * controller) :=
  [("navigation", Navigation); ("lazyLoader", LazyLoader);
   ("formValidator", FormValidator); ("faq", FAQ); ("backToTop", BackToTop);
   ("animationObserver", AnimationObserver)] ++
  (if bool_decide (hostname = "localhost") || bool_decide (hostname = "127.0.0.1")
   then [("performanceMonitor", PerformanceMonitor)] else []).

(** The statements of [plan] one after the other; [throws c] says that
    [new c()] throws.  The result is [false] when a constructor threw: the
    statements after it did not run. *)
Fixpoint construct (throws : controller → bool) (todo : list (string * controller))
    (m : gmap string controller) : gmap string controller * bool :=
  match todo with
  | [] => (m, true)
  | (name, c) :: todo' =>
      if throws c then (m, false)
      else construct throws todo' (<[name := c]> m)
  end.

(** [init()] once the document is ready. *)
Definition init (hostname : string) (throws : controller → bool) (st : state) : state :=
  match construct throws (plan hostname) (modules st) with
  | (m, true) =>
      {| modules := m; handlers := true; announcer := true;
         console := console st ++ ["App initialized successfully"] |}
  | (m, false) =>
      {| modules := m; handlers := handlers st; announcer := announcer st;
         console := console st ++ ["Error initializing app:"] |}
  end.

(** [getModule(name)] *)
Definition getModule (name : string) (st : state) : option controller :=
  modules st !! name.

End App.

(** ** Example pages *)

Module Examples.

(** A viewport of 800 by 800 pixels. *)
Definition viewport800 : Geometry.Viewport :=
  {| Geometry.innerHeight := Number.ofZ 800; Geometry.innerWidth := Number.ofZ 800;
     Geometry.clientHeight := Number.ofZ 800; Geometry.clientWidth := Number.ofZ 800 |}.

(** A box 20 pixels wide in the middle of the viewport that starts far above
    it and ends 300 pixels below its top edge. *)
Definition tallThinBox : Geometry.DOMRect :=
  {| Geometry.top := Number.ofZ (-10000); Geometry.bottom := Number.ofZ 300;
     Geometry.left := Number.ofZ 390; Geometry.right := Number.ofZ 410 |}.

(** A box of 100 by 100 pixels in the top left corner of the viewport. *)
Definition cornerBox : Geometry.DOMRect :=
  {| Geometry.top := Number.ofZ 0; Geometry.bottom := Number.ofZ 100;
     Geometry.left := Number.ofZ 0; Geometry.right := Number.ofZ 100 |}.

(** A box of 300 by 300 pixels in the middle of the viewport. *)
Definition middleBox : Geometry.DOMRect :=
  {| Geometry.top := Number.ofZ 250; Geometry.bottom := Number.ofZ 550;
     Geometry.left := Number.ofZ 250; Geometry.right := Number.ofZ 550 |}.

(** A box that covers the viewport. *)
Definition fullBox : Geometry.DOMRect :=
  {| Geometry.top := Number.ofZ 0; Geometry.bottom := Number.ofZ 800;
     Geometry.left := Number.ofZ 0; Geometry.right := Number.ofZ 800 |}.

(** The thresholds [0.25], [0.75] and [0.1], the default. *)
Definition quarter : Number.number := Number.div (Number.ofZ 1) (Number.ofZ 4).
Definition threeQuarters : Number.number := Number.div (Number.ofZ 3) (Number.ofZ 4).
Definition tenth : Number.number := Number.div (Number.ofZ 1) (Number.ofZ 10).

(** A threshold too small to show in [1 - threshold]: two to the power -60. *)
Definition tiny : Number.number :=
  binary_normalize Number.prec Number.emax 1 (-60) false.

(** Frame times of 0.3, 400.3, 800.3 and 816.3 ms. *)
Definition time03 : Number.number := Number.div (Number.ofZ 3) (Number.ofZ 10).
Definition time4003 : Number.number := Number.div (Number.ofZ 4003) (Number.ofZ 10).
Definition time8003 : Number.number := Number.div (Number.ofZ 8003) (Number.ofZ 10).
Definition time8163 : Number.number := Number.div (Number.ofZ 8163) (Number.ofZ 10).

(** A box whose top edge is the bottom edge of the viewport. *)
Definition belowBox : Geometry.DOMRect :=
  {| Geometry.top := Number.ofZ 800; Geometry.bottom := Number.ofZ 900;
     Geometry.left := Number.ofZ 0; Geometry.right := Number.ofZ 100 |}.

(** A required e-mail field, left empty, on a page that has no element
    [email-error]. *)
Definition bareField : FormValidator.Field :=
  {| FormValidator.name := "email";
     FormValidator.type := "email";
     FormValidator.value := [];
     FormValidator.defaultValue := [];
     FormValidator.focusable := true;
     FormValidator.node :=
       {| FormValidator.classList := ∅;
          FormValidator.attributes := {["required" := ""]};
          FormValidator.textContent := "";
          FormValidator.descendants := [] |} |}.

(** A required e-mail field with the given value. *)
Definition emailField (v : string) : FormValidator.Field :=
  {| FormValidator.name := "email";
     FormValidator.type := "email";
     FormValidator.value := JS.lit v;
     FormValidator.defaultValue := [];
     FormValidator.focusable := true;
     FormValidator.node :=
       {| FormValidator.classList := ∅;
          FormValidator.attributes := {["required" := ""]};
          FormValidator.textContent := "";
          FormValidator.descendants := [] |} |}.

(** A page that holds the element [email-error]. *)
Definition emailErrorPage : gmap string FormValidator.Element :=
  {["email-error" := {| FormValidator.classList := {["error-message"]};
                        FormValidator.attributes := ∅;
                        FormValidator.textContent := "";
                        FormValidator.descendants := [] |}]}.

(** A field that validates. *)
Definition nameField : FormValidator.Field :=
  {| FormValidator.name := "name";
     FormValidator.type := "text";
     FormValidator.value := JS.lit "Ada";
     FormValidator.defaultValue := [];
     FormValidator.focusable := true;
     FormValidator.node :=
       {| FormValidator.classList := ∅;
          FormValidator.attributes := {["required" := ""]};
          FormValidator.textContent := "";
          FormValidator.descendants := [] |} |}.

(** A contact form: one valid field and a submit button labelled [Send];
    [isAttached] says whether the form has a parent. *)
Definition contactForm (isAttached : bool) : FormValidator.Page :=
  {| FormValidator.inputs := [nameField];
     FormValidator.document := ∅;
     FormValidator.submitBtn :=
       Some {| FormValidator.disabled := false; FormValidator.innerHTML := "Send" |};
     FormValidator.attached := isAttached;
     FormValidator.resetShadowed := false;
     FormValidator.alerts := [];
     FormValidator.focused := None;
     FormValidator.console := [];
     FormValidator.disabledWrites := [] |}.

(** An FAQ item with its question and its answer. *)
Definition faqItem (isOpen : bool) : FAQ.Item :=
  {| FAQ.question := Some {| FAQ.ariaExpanded := Some (FAQ.ofBool isOpen) |};
     FAQ.answer := Some {| FAQ.active := isOpen |} |}.

(** Three FAQ items, the second one expanded. *)
Definition faqPage : list FAQ.Item :=
  [faqItem false; faqItem true; faqItem false].



(** An FAQ page whose second item has lost its answer. *)
Definition brokenFaqPage : list FAQ.Item :=
  [faqItem false;
   {| FAQ.question := Some {| FAQ.ariaExpanded := Some "false" |};
      FAQ.answer := None |}].

(** A phone field with the given value. *)
Definition telField (v : string) : FormValidator.Field :=
  {| FormValidator.name := "phone";
     FormValidator.type := "tel";
     FormValidator.value := JS.lit v;
     FormValidator.defaultValue := [];
     FormValidator.focusable := true;
     FormValidator.node :=
       {| FormValidator.classList := ∅;
          FormValidator.attributes := ∅;
          FormValidator.textContent := "";
          FormValidator.descendants := [] |} |}.

(** A form with a valid field followed by two that fail. *)
Definition mixedForm : FormValidator.Page :=
  {| FormValidator.inputs := [nameField; bareField; emailField "not-an-email"];
     FormValidator.document := emailErrorPage;
     FormValidator.submitBtn :=
       Some {| FormValidator.disabled := false; FormValidator.innerHTML := "Send" |};
     FormValidator.attached := true;
     FormValidator.resetShadowed := false;
     FormValidator.alerts := [];
     FormValidator.focused := None;
     FormValidator.console := [];
     FormValidator.disabledWrites := [] |}.

(** A required field, left empty, that cannot take the focus: an input of
    type [hidden]. *)
Definition hiddenField : FormValidator.Field :=
  {| FormValidator.name := "token";
     FormValidator.type := "hidden";
     FormValidator.value := [];
     FormValidator.defaultValue := [];
     FormValidator.focusable := false;
     FormValidator.node :=
       {| FormValidator.classList := ∅;
          FormValidator.attributes := {["required" := ""]};
          FormValidator.textContent := "";
          FormValidator.descendants := [] |} |}.

(** A form whose first failing field cannot take the focus. *)
Definition hiddenForm : FormValidator.Page :=
  {| FormValidator.inputs := [nameField; hiddenField; bareField];
     FormValidator.document := ∅;
     FormValidator.submitBtn :=
       Some {| FormValidator.disabled := false; FormValidator.innerHTML := "Send" |};
     FormValidator.attached := true;
     FormValidator.resetShadowed := false;
     FormValidator.alerts := [];
     FormValidator.focused := None;
     FormValidator.console := [];
     FormValidator.disabledWrites := [] |}.

(** A page on which the error element of the field [email] holds an icon,
    the element [email-icon]. *)
Definition iconErrorPage : gmap string FormValidator.Element :=
  {["email-error" := {| FormValidator.classList := {["error-message"]};
                        FormValidator.attributes := ∅;
                        FormValidator.textContent := "";
                        FormValidator.descendants := ["email-icon"] |};
    "email-icon" := {| FormValidator.classList := {["icon"]};
                       FormValidator.attributes := ∅;
                       FormValidator.textContent := "";
                       FormValidator.descendants := [] |}]}.

(** A valid form in which a control named [reset] shadows the method. *)
Definition shadowedForm : FormValidator.Page :=
  {| FormValidator.inputs := [nameField];
     FormValidator.document := ∅;
     FormValidator.submitBtn :=
       Some {| FormValidator.disabled := false; FormValidator.innerHTML := "Send" |};
     FormValidator.attached := true;
     FormValidator.resetShadowed := true;
     FormValidator.alerts := [];
     FormValidator.focused := None;
     FormValidator.console := [];
     FormValidator.disabledWrites := [] |}.

(** A valid form that has no submit button. *)
Definition buttonlessForm : FormValidator.Page :=
  {| FormValidator.inputs := [nameField];
     FormValidator.document := ∅;
     FormValidator.submitBtn := None;
     FormValidator.attached := true;
     FormValidator.resetShadowed := false;
     FormValidator.alerts := [];
     FormValidator.focused := None;
     FormValidator.console := [];
     FormValidator.disabledWrites := [] |}.

End Examples.

(* ===================================================================== *)
(** * Part II. Properties *)
(* ===================================================================== *)

(** ** Proof automation *)


(** ** Lists *)

(** The last element of a non-empty list does not depend on the default. *)
Lemma last_cons_default {A : Type} (l : list A) : ∀ x d,
  List.last (x :: l) d = List.last l x.
Proof.
  induction l as [|y l IH]; intros x d; [reflexivity|].
  change (List.last (x :: y :: l) d) with (List.last (y :: l) d).
  rewrite (IH y d), (IH y x). reflexivity.
Qed.

(** ** Debounce *)

Section DebounceFacts.
Import Debounce.
Context {A : Type}.
Variable wait : nat.

Section AnyEdge.
Variable immediate : bool.

Lemma run_timers_quiescent now (st : state (A:=A)) :
  quiescent st → run_timers immediate now st = st.
Proof.
  destruct st as [o ts f cs]. unfold quiescent, run_timers; simpl.
  intros [-> _]. reflexivity.
Qed.

Lemma run_timers_armed_early now t (a : A) log st :
  armed wait t a log st → now < t + wait → run_timers immediate now st = st.
Proof.
  intros (h & Ho & Hts & Hc) Hlt. destruct st as [o ts f cs]; simpl in *; subst.
  unfold run_timers; simpl.
  rewrite !filter_cons, !filter_nil; simpl.
  destruct (decide (t + wait ≤ now)); [lia|].
  destruct (decide (¬ t + wait ≤ now)); [reflexivity | tauto].
Qed.

Lemma run_timers_armed_late now t (a : A) log st :
  armed wait t a log st → t + wait ≤ now →
  quiescent (run_timers immediate now st) ∧
  calls (run_timers immediate now st) =
    if immediate then log else log ++ [(t + wait, a)].
Proof.
  intros (h & Ho & Hts & Hc) Hle. destruct st as [o ts f cs]; simpl in *; subst.
  unfold run_timers, quiescent; simpl.
  rewrite !filter_cons, !filter_nil; simpl.
  destruct (decide (t + wait ≤ now)); [|lia].
  destruct (decide (¬ t + wait ≤ now)); [tauto|].
  simpl. auto.
Qed.

Lemma executedFunction_armed now t (a a' : A) log st :
  armed wait t a log st →
  armed wait now a' log (executedFunction wait immediate now a' st).
Proof.
  intros (h & Ho & Hts & Hc). destruct st as [o ts f cs]; simpl in *; subst.
  exists f. unfold executedFunction; simpl.
  rewrite filter_cons, filter_nil; simpl.
  destruct (decide (h ≠ h)); [congruence|].
  rewrite andb_false_r. auto.
Qed.

Lemma executedFunction_quiescent now (a : A) st :
  quiescent st →
  armed wait now a (if immediate then calls st ++ [(now, a)] else calls st)
        (executedFunction wait immediate now a st).
Proof.
  unfold quiescent. destruct st as [o ts f cs]; simpl. intros [-> ->].
  exists f. unfold executedFunction; simpl.
  destruct immediate; simpl; auto.
Qed.

(** Within a burst the pending timer is replaced at every call and never
    runs. *)
Lemma simulate_armed evs : ∀ t (a : A) log st,
  armed wait t a log st → tight wait t evs →
  armed wait (List.last evs (t, a)).1 (List.last evs (t, a)).2 log
        (simulate wait immediate evs st).
Proof.
  induction evs as [|[t' a'] evs IH]; intros t a log st Harm Ht.
  - exact Harm.
  - destruct Ht as (Hle & Hlt & Ht). simpl in Hle, Hlt, Ht.
    assert (Hstep : armed wait t' a' log (call wait immediate st (t', a'))).
    { unfold call; simpl. rewrite (run_timers_armed_early _ _ _ _ _ Harm Hlt).
      eapply executedFunction_armed; eauto. }
    specialize (IH t' a' log _ Hstep Ht).
    replace (List.last ((t', a') :: evs) (t, a)) with (List.last evs (t', a'))
      by (symmetry; apply last_cons_default).
    exact IH.
Qed.

(** The state after a whole burst that starts from rest. *)
Lemma burst_armed t0 (a0 : A) evs st :
  quiescent st → tight wait t0 evs →
  armed wait (List.last evs (t0, a0)).1 (List.last evs (t0, a0)).2
        (if immediate then calls st ++ [(t0, a0)] else calls st)
        (simulate wait immediate ((t0, a0) :: evs) st).
Proof.
  intros Hq Ht. simpl. apply simulate_armed; [|exact Ht].
  unfold call; simpl. rewrite (run_timers_quiescent _ _ Hq).
  apply executedFunction_quiescent. exact Hq.
Qed.

End AnyEdge.

(** C3. A burst of calls [(t0, a0) :: evs] to a function debounced with
    [immediate = false], started at rest and with consecutive calls less than
    [wait] apart, runs the wrapped action exactly once: nothing has run at a
    time [T] before [wait] has elapsed from the last call, and from then on
    the log holds one more entry, the run at [wait] after the last call, with
    the arguments of the last call. *)
Theorem debounce_trailing_once t0 (a0 : A) evs (st : state) T :
  quiescent st → tight wait t0 evs →
  calls (run_timers false T (simulate wait false ((t0, a0) :: evs) st)) =
    if decide ((List.last evs (t0, a0)).1 + wait ≤ T)
    then calls st ++ [((List.last evs (t0, a0)).1 + wait, (List.last evs (t0, a0)).2)]
    else calls st.
Proof.
  intros Hq Ht.
  pose proof (burst_armed false t0 a0 evs st Hq Ht) as Harm; cbv iota in Harm.
  destruct (decide ((List.last evs (t0, a0)).1 + wait ≤ T)) as [Hle|Hgt].
  - destruct (run_timers_armed_late false T _ _ _ _ Harm Hle) as [_ ->].
    reflexivity.
  - rewrite (run_timers_armed_early false T _ _ _ _ Harm) by lia.
    destruct Harm as (h & _ & _ & Hc). exact Hc.
Qed.

(** A call made when the function is at rest runs the action, on the
    leading edge, and arms the timer. *)
Lemma call_atRest_leading t (a : A) log st t0 :
  atRest wait t0 log st → t0 ≤ t →
  armed wait t a (log ++ [(t, a)]) (call wait true st (t, a)).
Proof.
  intros [Hlog [Hq|(t' & a' & Harm & Hdue)]] Hle; unfold call; simpl.
  - rewrite (run_timers_quiescent true _ _ Hq).
    pose proof (executedFunction_quiescent true t a st Hq) as H.
    cbv iota in H. rewrite Hlog in H. exact H.
  - assert (Hlate : t' + wait ≤ t) by lia.
    destruct (run_timers_armed_late true t _ _ _ _ Harm Hlate) as [Hq Hc].
    pose proof (executedFunction_quiescent true t a _ Hq) as H.
    cbv iota in H. rewrite Hc in H. exact H.
Qed.

(** After a burst that starts at rest, the function is at rest again once
    [wait] has elapsed from the last call, and the burst has run the action
    once, at its first call. *)
Lemma burst_atRest (b : burst (A:=A)) log st t0 :
  atRest wait t0 log st → t0 ≤ b.1.1 → tight wait b.1.1 b.2 →
  atRest wait (lastCall b + wait) (log ++ [b.1])
          (simulate wait true (callsOf b) st).
Proof.
  intros Hs Hle Ht. destruct b as [[t a] evs]. simpl in *.
  pose proof (call_atRest_leading t a log st t0 Hs Hle) as Harm.
  pose proof (simulate_armed true evs t a _ _ Harm Ht) as Hend.
  split.
  - destruct Hend as (h & _ & _ & Hc). exact Hc.
  - right. exists (List.last evs (t, a)).1, (List.last evs (t, a)).2.
    split; [exact Hend|]. unfold lastCall. simpl. lia.
Qed.

Lemma bursts_atRest (bs : list (burst (A:=A))) : ∀ log st t0,
  atRest wait t0 log st → separated wait t0 bs →
  ∃ t1, atRest wait t1 (log ++ (fst <$> bs))
                (simulate wait true (concat (callsOf <$> bs)) st) ∧
        (∀ b, last bs = Some b → t1 = lastCall b + wait).
Proof.
  induction bs as [|b bs IH]; intros log st t0 Hs Hsep.
  - exists t0. simpl. rewrite app_nil_r. split; [exact Hs|discriminate].
  - destruct Hsep as (Hle & Ht & Hsep).
    pose proof (burst_atRest b log st t0 Hs Hle Ht) as Hb.
    destruct (IH _ _ _ Hb Hsep) as (t1 & Hs1 & Hlast).
    cbn [fmap list_fmap concat]. unfold simulate in *. rewrite foldl_app.
    destruct bs as [|b' bs].
    + exists (lastCall b + wait). simpl in *. split; [exact Hb|].
      intros b0 [= <-]. reflexivity.
    + exists t1. rewrite <- app_assoc in Hs1. split; [exact Hs1|].
      intros b0 Hb0. apply Hlast. exact Hb0.
Qed.

(** C10. With [immediate = true], every burst of a sequence of bursts that
    starts at rest runs the wrapped action exactly once, at its first call
    and with the arguments of that call: the log gains the first call of each
    burst and nothing else, whatever the time [T] at which one looks, so that
    no timer runs the action on the trailing edge; and once [wait] has elapsed
    from the last call the function is at rest again, ready for the next
    burst. *)
Theorem debounce_leading_only (bs : list (burst (A:=A))) (st : state) T :
  quiescent st → separated wait 0 bs →
  calls (simulate wait true (concat (callsOf <$> bs)) st)
    = calls st ++ (fst <$> bs) ∧
  calls (run_timers true T (simulate wait true (concat (callsOf <$> bs)) st))
    = calls st ++ (fst <$> bs) ∧
  (∀ b, last bs = Some b → lastCall b + wait ≤ T →
        quiescent (run_timers true T (simulate wait true (concat (callsOf <$> bs)) st))).
Proof.
  intros Hq Hsep.
  assert (Hs : atRest wait 0 (calls st) st) by (split; [reflexivity|left; exact Hq]).
  destruct (bursts_atRest bs _ _ _ Hs Hsep) as (t1 & [Hlog Hrest] & Hlast).
  split; [exact Hlog|].
  destruct Hrest as [Hq'|(t' & a' & Harm & Hdue)].
  - rewrite (run_timers_quiescent true _ _ Hq').
    split; [exact Hlog|]. intros _ _ _. exact Hq'.
  - split.
    + destruct (decide (t' + wait ≤ T)) as [Hle|Hgt].
      * destruct (run_timers_armed_late true T _ _ _ _ Harm Hle) as [_ ->].
        reflexivity.
      * rewrite (run_timers_armed_early true T _ _ _ _ Harm) by lia. exact Hlog.
    + intros b Hb HT. specialize (Hlast b Hb). subst t1.
      assert (Hle : t' + wait ≤ T) by lia.
      exact (proj1 (run_timers_armed_late true T _ _ _ _ Harm Hle)).
Qed.

End DebounceFacts.

Section DebounceExamples.
Import Debounce.

(** A resize burst as the navigation debounces it
    ([CONFIG.DEBOUNCE_DELAY = 150]): three calls 100 ms apart run the action
    once, 150 ms after the third. *)
Lemma debounce_trailing_once_witness :
  quiescent (A:=nat) init ∧
  tight 150 0 [(100, 2); (200, 3)] ∧
  calls (run_timers false 350 (simulate 150 false [(0, 1); (100, 2); (200, 3)] init))
  = [(350, 3)].
Proof.
  assert (Hq : quiescent (A:=nat) init) by (split; reflexivity).
  assert (Ht : tight 150 0 [(100, 2); (200, 3)]) by (simpl; lia).
  split; [exact Hq|]. split; [exact Ht|].
  exact (debounce_trailing_once 150 0 1 [(100, 2); (200, 3)] init 350 Hq Ht).
Defined.

(** Two resize bursts on the leading edge, the second one 300 ms after the
    end of the first: one run for each, at its first call, and the function
    at rest after the second. *)
Lemma debounce_leading_only_witness :
  quiescent (A:=nat) init ∧
  separated 150 0 [((0, 1), [(100, 2); (200, 3)]); ((500, 4), [(600, 5)])] ∧
  calls (simulate 150 true [(0, 1); (100, 2); (200, 3); (500, 4); (600, 5)] init)
    = [(0, 1); (500, 4)] ∧
  calls (run_timers true 1000
           (simulate 150 true [(0, 1); (100, 2); (200, 3); (500, 4); (600, 5)] init))
    = [(0, 1); (500, 4)] ∧
  quiescent (run_timers true 1000
               (simulate 150 true [(0, 1); (100, 2); (200, 3); (500, 4); (600, 5)] init)).
Proof.
  assert (Hq : quiescent (A:=nat) init) by (split; reflexivity).
  assert (Hs : separated 150 0 [((0, 1), [(100, 2); (200, 3)]); ((500, 4), [(600, 5)])])
    by (simpl; unfold lastCall; simpl; lia).
  destruct (debounce_leading_only 150
              [((0, 1), [(100, 2); (200, 3)]); ((500, 4), [(600, 5)])] init 1000 Hq Hs)
    as (H1 & H2 & H3).
  split; [exact Hq|]. split; [exact Hs|]. split; [exact H1|]. split; [exact H2|].
  apply (H3 ((500, 4), [(600, 5)])); [reflexivity|]. unfold lastCall. simpl. lia.
Defined.

End DebounceExamples.

(** ** Throttle *)

Section ThrottleFacts.
Import Throttle.
Context {A : Type}.
Variable limit : nat.

Lemma run_timers_idle now (st : state (A:=A)) :
  idle st → run_timers now st = st.
Proof.
  destruct st as [b ts cs]. unfold idle, run_timers; simpl.
  intros [-> ->]. reflexivity.
Qed.

(** The first call of a window runs the action and closes the window. *)
Lemma call_idle (st : state (A:=A)) ev :
  idle st → closed limit ev.1 (calls st ++ [ev]) (call limit st ev).
Proof.
  intros Hi. unfold call. rewrite (run_timers_idle _ _ Hi).
  destruct st as [b ts cs], ev as [t a]. destruct Hi as [Hb Hts]; simpl in *; subst.
  unfold executedFunction, closed; simpl. auto.
Qed.

(** A call inside the window is dropped: nothing changes. *)
Lemma call_closed_inside t log (st : state (A:=A)) ev :
  closed limit t log st → ev.1 < t + limit → call limit st ev = st.
Proof.
  intros (Hb & Hts & Hc) Hlt. destruct st as [b ts cs]; simpl in *; subst.
  unfold call, run_timers, executedFunction; simpl.
  rewrite !filter_cons, !filter_nil; simpl.
  destruct (decide (t + limit ≤ ev.1)); [lia|].
  destruct (decide (¬ t + limit ≤ ev.1)); [reflexivity|tauto].
Qed.

(** Once the window has elapsed the timer has cleared the flag. *)
Lemma run_timers_closed_after t log (st : state (A:=A)) now :
  closed limit t log st → t + limit ≤ now →
  idle (run_timers now st) ∧ calls (run_timers now st) = log.
Proof.
  intros (Hb & Hts & Hc) Hle. destruct st as [b ts cs]; simpl in *; subst.
  unfold run_timers, idle; simpl.
  rewrite !filter_cons, !filter_nil; simpl.
  destruct (decide (t + limit ≤ now)); [|lia].
  destruct (decide (¬ t + limit ≤ now)); [tauto|].
  simpl. auto.
Qed.

Lemma simulate_closed evs : ∀ t log (st : state (A:=A)),
  closed limit t log st → within limit t evs → simulate limit evs st = st.
Proof.
  induction evs as [|ev evs IH]; intros t log st Hc Hw; [reflexivity|].
  apply Forall_cons in Hw as [[_ Hlt] Hw]. simpl.
  rewrite (call_closed_inside _ _ _ _ Hc Hlt). eauto.
Qed.


End ThrottleFacts.

Section ThrottleExamples.
Import Throttle.


End ThrottleExamples.

(** ** Viewport test *)

(** Case analysis on the comparisons of exponents and mantissas inside
    [SFcompare]. *)
Ltac order_cases :=
  repeat match goal with
  | |- context [Z.compare ?a ?b] => destruct (Z.compare_spec a b)
  | H : context [Z.compare ?a ?b] |- _ => destruct (Z.compare_spec a b)
  | |- context [Pos.compare_cont Eq ?a ?b] =>
      change (Pos.compare_cont Eq a b) with (Pos.compare a b);
      destruct (Pos.compare_spec a b)
  | H : context [Pos.compare_cont Eq ?a ?b] |- _ =>
      change (Pos.compare_cont Eq a b) with (Pos.compare a b) in H;
      destruct (Pos.compare_spec a b)
  end.

Section NumberFacts.
Import Number.

(** [<=] on Numbers is transitive, total on the Numbers that are not [NaN],
    and reflexive on them. *)
Lemma leb_trans x y z : leb x y = true → leb y z = true → leb x z = true.
Proof.
  unfold leb, SFleb.
  destruct x as [sx|sx| |sx mx ex], y as [sy|sy| |sy my ey], z as [sz|sz| |sz mz ez];
    repeat match goal with s : bool |- _ => destruct s end;
    cbn [SFcompare CompOpp]; intros Hxy Hyz;
    try discriminate; try reflexivity;
    order_cases; cbn [CompOpp] in *; try discriminate; try reflexivity; lia.
Qed.

Lemma leb_refl_l x y : leb x y = true → leb x x = true.
Proof.
  unfold leb, SFleb. destruct x as [sx|sx| |sx mx ex]; try destruct sx;
    cbn [SFcompare CompOpp]; intros Hx; try reflexivity;
    try (destruct y; discriminate);
    rewrite Z.compare_refl;
    change (Pos.compare_cont Eq mx mx) with (Pos.compare mx mx);
    rewrite Pos.compare_refl; reflexivity.
Qed.

Lemma leb_refl_r x y : leb x y = true → leb y y = true.
Proof.
  unfold leb, SFleb. destruct y as [sy|sy| |sy my ey]; try destruct sy;
    cbn [SFcompare CompOpp]; intros Hx; try reflexivity;
    try (destruct x as [[]|[]| |[]]; discriminate);
    rewrite Z.compare_refl;
    change (Pos.compare_cont Eq my my) with (Pos.compare my my);
    rewrite Pos.compare_refl; reflexivity.
Qed.

Lemma leb_total x y : leb x x = true → leb y y = true → leb x y = true ∨ leb y x = true.
Proof.
  unfold leb, SFleb.
  destruct x as [sx|sx| |sx mx ex], y as [sy|sy| |sy my ey];
    try discriminate; intros _ _;
    repeat match goal with s : bool |- _ => destruct s end;
    cbn [SFcompare CompOpp]; auto;
    order_cases; cbn [CompOpp] in *; auto; lia.
Qed.

End NumberFacts.

Section NumberValues.
Import Number.
Local Open Scope Z_scope.

Lemma digits2_pos_bounds m :
  2 ^ (Z.pos (digits2_pos m) - 1) ≤ Z.pos m < 2 ^ Z.pos (digits2_pos m).
Proof.
  induction m as [m IH|m IH|]; cbn [digits2_pos].
  - rewrite Pos2Z.inj_succ.
    replace (Z.succ (Z.pos (digits2_pos m)) - 1) with (Z.succ (Z.pos (digits2_pos m) - 1))
      by lia.
    rewrite !Z.pow_succ_r by lia. lia.
  - rewrite Pos2Z.inj_succ.
    replace (Z.succ (Z.pos (digits2_pos m)) - 1) with (Z.succ (Z.pos (digits2_pos m) - 1))
      by lia.
    rewrite !Z.pow_succ_r by lia. lia.
  - simpl. lia.
Qed.

(** A mantissa of the format has at most 53 bits, and exactly 53 above the
    smallest exponent. *)
Lemma bounded_range m e :
  bounded prec emax m e = true →
  -1074 ≤ e ∧ Z.pos m < 2 ^ 53 ∧ (-1074 < e → 2 ^ 52 ≤ Z.pos m).
Proof.
  unfold bounded, canonical_mantissa, fexp, emin, prec, emax.
  intros H. apply andb_true_iff in H as [Hc _]. apply Z.eqb_eq in Hc.
  pose proof (digits2_pos_bounds m) as [Hlo Hhi].
  split; [lia|]. split.
  - eapply Z.lt_le_trans; [exact Hhi|]. apply Z.pow_le_mono_r; lia.
  - intros He. replace (Z.pos (digits2_pos m)) with 53 in Hlo by lia. exact Hlo.
Qed.

Lemma scaled_exponent m1 e1 m2 e2 :
  bounded prec emax m1 e1 = true → bounded prec emax m2 e2 = true → e1 < e2 →
  Z.pos m1 * 2 ^ (e1 + 1074) < Z.pos m2 * 2 ^ (e2 + 1074).
Proof.
  intros H1 H2 Hlt.
  destruct (bounded_range _ _ H1) as (He1 & Hm1 & _).
  destruct (bounded_range _ _ H2) as (_ & _ & Hm2).
  specialize (Hm2 ltac:(lia)).
  assert (Hp : 0 < 2 ^ (e1 + 1074)) by (apply Z.pow_pos_nonneg; lia).
  assert (Hstep : 2 ^ (e1 + 1074 + 1) ≤ 2 ^ (e2 + 1074)) by (apply Z.pow_le_mono_r; lia).
  rewrite Z.pow_add_r in Hstep by lia. change (2 ^ 1) with 2 in Hstep.
  change (2 ^ 53) with (2 ^ 52 * 2) in Hm1. nia.
Qed.

Lemma scaled_positive m e :
  bounded prec emax m e = true → 0 < Z.pos m * 2 ^ (e + 1074).
Proof.
  intros H. destruct (bounded_range _ _ H) as (? & _).
  apply Z.mul_pos_pos; [lia|]. apply Z.pow_pos_nonneg; lia.
Qed.

Lemma leb_scaled x y :
  valid x = true → valid y = true → finite x = true → finite y = true →
  leb x y = true ↔ scaled x ≤ scaled y.
Proof.
  unfold valid, leb, SFleb.
  destruct x as [sx|sx| |sx mx ex], y as [sy|sy| |sy my ey]; try discriminate;
    cbn [valid_binary finite scaled SFcompare]; intros Hx Hy _ _.
  - split; [lia|reflexivity].
  - pose proof (scaled_positive _ _ Hy).
    destruct sy; unfold id; split; intros; try discriminate; try reflexivity; lia.
  - pose proof (scaled_positive _ _ Hx).
    destruct sx; unfold id; split; intros; try discriminate; try reflexivity; lia.
  - pose proof (scaled_positive _ _ Hx) as Px.
    pose proof (scaled_positive _ _ Hy) as Py.
    assert (Hlt : ex < ey → Z.pos mx * 2 ^ (ex + 1074) < Z.pos my * 2 ^ (ey + 1074))
      by (apply scaled_exponent; assumption).
    assert (Hgt : ey < ex → Z.pos my * 2 ^ (ey + 1074) < Z.pos mx * 2 ^ (ex + 1074))
      by (apply scaled_exponent; assumption).
    assert (Hp : 0 < 2 ^ (ex + 1074)).
    { destruct (bounded_range _ _ Hx) as (? & _). apply Z.pow_pos_nonneg; lia. }
    destruct sx, sy; unfold id; order_cases; cbn [CompOpp]; subst;
      split; intros; try discriminate; try reflexivity; try lia; try nia.
Qed.

Lemma toQ_scaled x :
  valid x = true → (toQ x == inject_Z (scaled x) * 2 ^ (-1074))%Q.
Proof.
  destruct x as [sx|sx| |sx mx ex]; cbn [toQ scaled]; intros Hx;
    try (rewrite Qmult_0_l; reflexivity).
  destruct (bounded_range _ _ Hx) as (He & _).
  assert (Hpow : (2 ^ ex == inject_Z (2 ^ (ex + 1074)) * 2 ^ (-1074))%Q).
  { rewrite (Zpower_Qpower 2 (ex + 1074)) by lia.
    rewrite <- Qpower_plus by discriminate.
    replace (ex + 1074 + -1074) with ex by lia. reflexivity. }
  destruct sx; unfold id.
  - rewrite inject_Z_opp, inject_Z_mult, Hpow. ring.
  - rewrite inject_Z_mult, Hpow. ring.
Qed.

(** On the finite Numbers of the format, [<=] is the order of the values. *)
Lemma leb_toQ x y :
  valid x = true → valid y = true → finite x = true → finite y = true →
  leb x y = true ↔ (toQ x <= toQ y)%Q.
Proof.
  intros Hx Hy Fx Fy. rewrite (leb_scaled x y Hx Hy Fx Fy).
  rewrite (toQ_scaled x Hx), (toQ_scaled y Hy).
  assert (Hp : (0 < 2 ^ (-1074))%Q) by (apply Qpower_0_lt; reflexivity).
  rewrite Zle_Qle. split; intros H.
  - apply Qmult_le_compat_r; [exact H|apply Qlt_le_weak, Hp].
  - eapply Qmult_le_r; [exact Hp|exact H].
Qed.

End NumberValues.

Section GeometryFacts.
Import Number Geometry.

Lemma isInViewport_true rect vp threshold :
  isInViewport rect vp threshold = true ↔
  leb (top rect) (highY (centralRegion vp threshold)) = true ∧
  leb (lowY (centralRegion vp threshold)) (bottom rect) = true ∧
  leb (left rect) (highX (centralRegion vp threshold)) = true ∧
  leb (lowX (centralRegion vp threshold)) (right rect) = true.
Proof.
  unfold isInViewport. rewrite !andb_true_iff.
  cbn [centralRegion lowX highX lowY highY]. tauto.
Qed.

(** Two intervals [[a, b]] and [[c, d]], neither of them inverted, share a
    point exactly when each starts before the other ends. *)
Lemma intervals_meet (a b c d : number) :
  leb a b = true → leb c d = true →
  (leb a d = true ∧ leb c b = true) ↔ ∃ y, between a y b ∧ between c y d.
Proof.
  intros Hab Hcd. unfold between. split.
  - intros [Had Hcb].
    pose proof (leb_refl_l _ _ Hab) as Ha. pose proof (leb_refl_l _ _ Hcd) as Hc.
    destruct (leb_total a c Ha Hc) as [Hac|Hca].
    + exists c. auto.
    + exists a. auto.
  - intros (y & [H1 H2] & [H3 H4]). split; eapply leb_trans; eauto.
Qed.

(** The interval [[a, b]] contains the interval [[c, d]], which is not
    inverted, exactly when it starts before it and ends after it. *)
Lemma interval_covered (a b c d : number) :
  leb c d = true →
  (leb a c = true ∧ leb d b = true) ↔ ∀ y, between c y d → between a y b.
Proof.
  intros Hcd. unfold between. split.
  - intros [Hac Hdb] y [H1 H2]. split; eapply leb_trans; eauto.
  - intros H. split.
    + apply (H c). split; [eapply leb_refl_l; eauto|exact Hcd].
    + apply (H d). split; [exact Hcd|eapply leb_refl_r; eauto].
Qed.

(** With a box that is not inverted and low bounds that do not exceed the
    high ones, the test is true exactly when the box meets the region. *)
Lemma isInViewport_meets rect vp threshold :
  leb (top rect) (bottom rect) = true → leb (left rect) (right rect) = true →
  leb (lowX (centralRegion vp threshold)) (highX (centralRegion vp threshold)) = true →
  leb (lowY (centralRegion vp threshold)) (highY (centralRegion vp threshold)) = true →
  isInViewport rect vp threshold = true ↔ meets rect (centralRegion vp threshold).
Proof.
  rewrite isInViewport_true. set (r := centralRegion vp threshold).
  intros Hv Hh Hx Hy.
  pose proof (intervals_meet _ _ _ _ Hv Hy) as My.
  pose proof (intervals_meet _ _ _ _ Hh Hx) as Mx.
  unfold meets. split.
  - intros (H1 & H2 & H3 & H4).
    destruct (proj1 My (conj H1 H2)) as (y & ? & ?).
    destruct (proj1 Mx (conj H3 H4)) as (x & ? & ?).
    exists x, y. tauto.
  - intros (x & y & H1 & H2 & H3 & H4).
    destruct (proj2 My (ex_intro _ y (conj H2 H4))) as [? ?].
    destruct (proj2 Mx (ex_intro _ x (conj H1 H3))) as [? ?].
    tauto.
Qed.

(** With high bounds that do not exceed the low ones, the test is true
    exactly when the box contains the rectangle between the bounds. *)
Lemma isInViewport_covers rect vp threshold :
  leb (highX (centralRegion vp threshold)) (lowX (centralRegion vp threshold)) = true →
  leb (highY (centralRegion vp threshold)) (lowY (centralRegion vp threshold)) = true →
  isInViewport rect vp threshold = true ↔ covers rect (centralRegion vp threshold).
Proof.
  rewrite isInViewport_true. set (r := centralRegion vp threshold).
  intros Hx Hy.
  pose proof (interval_covered (top rect) (bottom rect) _ _ Hy) as Cy.
  pose proof (interval_covered (left rect) (right rect) _ _ Hx) as Cx.
  unfold covers. split.
  - intros (H1 & H2 & H3 & H4) x y Bx By. split.
    + apply (proj1 Cx); [split; assumption|exact Bx].
    + apply (proj1 Cy); [split; assumption|exact By].
  - intros H.
    assert (Hxx : between (highX r) (highX r) (lowX r))
      by (split; [eapply leb_refl_l; eauto|exact Hx]).
    assert (Hyy : between (highY r) (highY r) (lowY r))
      by (split; [eapply leb_refl_l; eauto|exact Hy]).
    destruct (proj2 Cy (λ y By, proj2 (H _ y Hxx By))) as [? ?].
    destruct (proj2 Cx (λ x Bx, proj1 (H x _ Bx Hyy))) as [? ?].
    tauto.
Qed.

(** Between finite Numbers of the format, [between] is betweenness of the
    values. *)
Lemma between_values a x b :
  valid a = true → valid x = true → valid b = true →
  finite a = true → finite x = true → finite b = true →
  between a x b ↔ (toQ a <= toQ x)%Q ∧ (toQ x <= toQ b)%Q.
Proof.
  intros Va Vx Vb Fa Fx Fb. unfold between.
  rewrite (leb_toQ a x Va Vx Fa Fx), (leb_toQ x b Vx Vb Fx Fb). reflexivity.
Qed.

(** C8, as amended. [isInViewport] is true exactly when the top and the
    left side of the box do not exceed the high bounds and the bottom and the
    right side are not below the low bounds, the four bounds being the
    products that the function computes and rounds.  Hence, when the box is
    not inverted and the low bounds do not exceed the high ones,
    [isInViewport] is true exactly when the box meets the central region of
    the viewport; when the high bounds do not exceed the low ones,
    [isInViewport] is true exactly when the box contains the whole rectangle
    between them.  The points are those with Numbers as coordinates, in the
    order of [<=], which on the finite Numbers of the format is the order of
    their values.  The result depends on nothing but the four sides, the
    viewport and the threshold. *)
Theorem isInViewport_central_region rect vp threshold :
  (isInViewport rect vp threshold = true ↔
   leb (top rect) (mul (windowHeight vp) (sub one threshold)) = true ∧
   leb (mul (windowHeight vp) threshold) (bottom rect) = true ∧
   leb (left rect) (mul (windowWidth vp) (sub one threshold)) = true ∧
   leb (mul (windowWidth vp) threshold) (right rect) = true) ∧
  (leb (top rect) (bottom rect) = true → leb (left rect) (right rect) = true →
   leb (lowX (centralRegion vp threshold)) (highX (centralRegion vp threshold)) = true →
   leb (lowY (centralRegion vp threshold)) (highY (centralRegion vp threshold)) = true →
   (isInViewport rect vp threshold = true ↔ meets rect (centralRegion vp threshold))) ∧
  (leb (highX (centralRegion vp threshold)) (lowX (centralRegion vp threshold)) = true →
   leb (highY (centralRegion vp threshold)) (lowY (centralRegion vp threshold)) = true →
   (isInViewport rect vp threshold = true ↔ covers rect (centralRegion vp threshold))) ∧
  (∀ a x b,
     valid a = true → valid x = true → valid b = true →
     finite a = true → finite x = true → finite b = true →
     (between a x b ↔ (toQ a <= toQ x)%Q ∧ (toQ x <= toQ b)%Q)).
Proof.
  split; [apply isInViewport_true|].
  split; [apply isInViewport_meets|].
  split; [apply isInViewport_covers|apply between_values].
Qed.

End GeometryFacts.

Section GeometryExamples.
Import Number Geometry Examples.

(** C8, as stated, fails. With a threshold of one quarter, [tallThinBox] is
    reported in the viewport although less than a quarter of its height is
    inside and it covers less than a quarter of the viewport's width; and
    [cornerBox], which lies wholly inside the viewport, is reported out of
    it. *)
Lemma isInViewport_not_overlap_fraction :
  isInViewport tallThinBox viewport800 quarter = true ∧
  (toQ quarter == 1 # 4)%Q ∧
  overlapsByFractionOfBox tallThinBox 800%Q 800%Q (1 # 4)%Q = false ∧
  overlapsByFractionOfViewport tallThinBox 800%Q 800%Q (1 # 4)%Q = false ∧
  isInViewport cornerBox viewport800 quarter = false ∧
  overlapsByFractionOfBox cornerBox 800%Q 800%Q (1 # 4)%Q = true.
Proof. vm_compute. repeat split; reflexivity. Qed.

(** In the viewport of 800 by 800 pixels: with the threshold [0.25] the
    bounds are 200 and 600 and [middleBox] meets the central region; with the
    threshold [0.75] the bounds have crossed and [fullBox] contains the
    rectangle between them; with the default threshold [0.1] the bounds are
    80 and 720; with a threshold of two to the power -60 the factor
    [1 - threshold] rounds to [1], and a box that starts on the bottom edge
    of the viewport is reported in. *)
Lemma isInViewport_central_region_witness :
  centralRegion viewport800 quarter
    = {| lowX := ofZ 200; highX := ofZ 600; lowY := ofZ 200; highY := ofZ 600 |} ∧
  isInViewport middleBox viewport800 quarter = true ∧
  meets middleBox (centralRegion viewport800 quarter) ∧
  centralRegion viewport800 threeQuarters
    = {| lowX := ofZ 600; highX := ofZ 200; lowY := ofZ 600; highY := ofZ 200 |} ∧
  isInViewport fullBox viewport800 threeQuarters = true ∧
  covers fullBox (centralRegion viewport800 threeQuarters) ∧
  centralRegion viewport800 tenth
    = {| lowX := ofZ 80; highX := ofZ 720; lowY := ofZ 80; highY := ofZ 720 |} ∧
  isInViewport belowBox viewport800 tiny = true.
Proof.
  destruct (isInViewport_central_region middleBox viewport800 quarter)
    as (_ & Hmeet & _).
  destruct (isInViewport_central_region fullBox viewport800 threeQuarters)
    as (_ & _ & Hcover & _).
  split; [reflexivity|]. split; [reflexivity|].
  split; [apply Hmeet; reflexivity|].
  split; [reflexivity|]. split; [reflexivity|].
  split; [apply Hcover; reflexivity|]. split; reflexivity.
Defined.

End GeometryExamples.

(** ** Regular expressions: the matcher decides the language *)

Section RegexFacts.
Import JS.

Lemma nullable_lang r : nullable r = true ↔ lang r [].
Proof.
  split.
  - induction r; simpl; intros H; try discriminate.
    + constructor.
    + apply andb_true_iff in H as [H1 H2].
      change (@nil N) with (@nil N ++ []). constructor; auto.
    + apply orb_true_iff in H as [H|H]; [apply lang_alt_l|apply lang_alt_r]; auto.
    + constructor.
  - intros H. remember (@nil N) as s eqn:Hs.
    induction H; simpl; subst; try discriminate; try reflexivity.
    + apply app_eq_nil in Hs as [-> ->]. rewrite IHlang1, IHlang2; auto.
    + rewrite IHlang; auto.
    + rewrite IHlang; auto. apply orb_true_r.
Qed.

Lemma deriv_sound c r : ∀ s, lang (deriv c r) s → lang r (c :: s).
Proof.
  induction r; simpl; intros s H.
  - inversion H.
  - inversion H.
  - destruct (p c) eqn:Hp; inversion H; subst. constructor; exact Hp.
  - destruct (nullable r1) eqn:Hn.
    + inversion H; subst.
      * match goal with Hs : lang (Seq _ _) _ |- _ => inversion Hs; subst end.
        change (c :: s1 ++ s2) with ((c :: s1) ++ s2). constructor; auto.
      * change (c :: s) with ([] ++ c :: s). constructor; auto.
        apply nullable_lang; exact Hn.
    + inversion H; subst.
      change (c :: s1 ++ s2) with ((c :: s1) ++ s2). constructor; auto.
  - inversion H; subst; [apply lang_alt_l|apply lang_alt_r]; auto.
  - inversion H; subst.
    change (c :: s1 ++ s2) with ((c :: s1) ++ s2). constructor; auto.
Qed.

Lemma deriv_complete c r s' : lang r s' → ∀ s, s' = c :: s → lang (deriv c r) s.
Proof.
  induction 1 as [|p d Hp|r1 r2 s1 s2 H1 IH1 H2 IH2|r1 r2 s1 H1 IH1|r1 r2 s1 H1 IH1
                  | |r s1 s2 H1 IH1 H2 IH2]; intros s Hs; simpl.
  - discriminate.
  - injection Hs as -> <-. rewrite Hp. constructor.
  - destruct s1 as [|c1 s1]; simpl in Hs.
    + apply nullable_lang in H1. rewrite H1. apply lang_alt_r. auto.
    + injection Hs as -> <-.
      assert (lang (Seq (deriv c r1) r2) (s1 ++ s2)) by (constructor; auto).
      destruct (nullable r1); [apply lang_alt_l|]; assumption.
  - apply lang_alt_l; auto.
  - apply lang_alt_r; auto.
  - discriminate.
  - destruct s1 as [|c1 s1]; simpl in Hs.
    + apply IH2; exact Hs.
    + injection Hs as -> <-. constructor; auto.
Qed.

(** [test] accepts exactly the strings of the language. *)
Lemma test_lang s : ∀ r, test r s = true ↔ lang r s.
Proof.
  induction s as [|c s IH]; intros r; simpl.
  - apply nullable_lang.
  - rewrite IH. split; [apply deriv_sound|].
    intros H. eapply deriv_complete; eauto.
Qed.

Lemma lang_seq_inv r1 r2 s :
  lang (Seq r1 r2) s ↔ ∃ s1 s2, s = s1 ++ s2 ∧ lang r1 s1 ∧ lang r2 s2.
Proof.
  split.
  - intros H; inversion H; subst; eauto.
  - intros (s1 & s2 & -> & H1 & H2). constructor; auto.
Qed.

Lemma lang_class_inv p s :
  lang (Class p) s ↔ ∃ c, s = [c] ∧ p c = true.
Proof.
  split.
  - intros H; inversion H; subst; eauto.
  - intros (c & -> & Hp). constructor; exact Hp.
Qed.

Lemma lang_opt_inv r s : lang (opt r) s ↔ s = [] ∨ lang r s.
Proof.
  unfold opt. split.
  - intros H; inversion H; subst; [right; assumption|].
    match goal with He : lang Eps _ |- _ => inversion He; subst end. left; reflexivity.
  - intros [->|H]; [apply lang_alt_r; constructor|apply lang_alt_l; exact H].
Qed.

Lemma lang_star_class p s :
  lang (Star (Class p)) s ↔ Forall (λ c, p c = true) s.
Proof.
  split.
  - intros H. remember (Star (Class p)) as r eqn:Hr.
    induction H; try discriminate.
    + constructor.
    + injection Hr as ->. inversion H; subst. simpl. constructor; auto.
  - induction 1 as [|c s Hp Hs IH]; [constructor|].
    change (c :: s) with ([c] ++ s). constructor; [constructor; exact Hp|exact IH].
Qed.

Lemma lang_plus_class p s :
  lang (plus (Class p)) s ↔ s ≠ [] ∧ Forall (λ c, p c = true) s.
Proof.
  unfold plus. rewrite lang_seq_inv. split.
  - intros (s1 & s2 & -> & H1 & H2).
    apply lang_class_inv in H1 as (c & -> & Hp). apply lang_star_class in H2.
    split; [discriminate|]. constructor; auto.
  - intros [Hne Hall]. destruct s as [|c s]; [congruence|].
    apply Forall_cons in Hall as [Hp Hall].
    exists [c], s. repeat split; [constructor; exact Hp|].
    apply lang_star_class; exact Hall.
Qed.

Lemma lang_upto_class p n : ∀ s,
  lang (upto n (Class p)) s ↔ length s ≤ n ∧ Forall (λ c, p c = true) s.
Proof.
  induction n as [|n IH]; intros s; simpl.
  - split.
    + intros H; inversion H; subst. split; [reflexivity|constructor].
    + intros [Hlen _]. destruct s; [constructor|simpl in Hlen; lia].
  - rewrite lang_opt_inv, lang_seq_inv. split.
    + intros [->|(s1 & s2 & -> & H1 & H2)].
      * split; [simpl; lia|constructor].
      * apply lang_class_inv in H1 as (c & -> & Hp). apply IH in H2 as [Hlen Hall].
        split; [simpl; lia|]. constructor; auto.
    + intros [Hlen Hall]. destruct s as [|c s]; [left; reflexivity|right].
      apply Forall_cons in Hall as [Hp Hall]. simpl in Hlen.
      exists [c], s. repeat split; [constructor; exact Hp|].
      apply IH. split; [lia|exact Hall].
Qed.

End RegexFacts.

(** ** Field validation *)

Section ValidationFacts.
Import JS FormValidator.

Lemma eqb_class_inv (k : N) s :
  lang (Class (N.eqb k)) s ↔ s = [k].
Proof.
  rewrite lang_class_inv. split.
  - intros (c & -> & Hc). apply N.eqb_eq in Hc as ->. reflexivity.
  - intros ->. exists k. split; [reflexivity|apply N.eqb_refl].
Qed.

(** The expression of [validateField] for e-mail addresses accepts exactly
    the strings of the form [local@domain.tld]. *)
Lemma emailRegex_shape s : test emailRegex s = true ↔ emailShape s.
Proof.
  rewrite test_lang. unfold emailRegex, emailShape, plain. split.
  - intros H.
    apply lang_seq_inv in H as (l & s1 & -> & Hl & H).
    apply lang_seq_inv in H as (a & s2 & -> & Ha & H).
    apply lang_seq_inv in H as (d & s3 & -> & Hd & H).
    apply lang_seq_inv in H as (o & t & -> & Ho & Ht).
    apply eqb_class_inv in Ha as ->. apply eqb_class_inv in Ho as ->.
    apply lang_plus_class in Hl, Hd, Ht.
    exists l, d, t. simpl. auto.
  - intros (l & d & t & -> & Hl & Hd & Ht).
    apply lang_plus_class in Hl, Hd, Ht.
    constructor; [exact Hl|].
    change (c_at :: d ++ c_dot :: t) with ([c_at] ++ d ++ [c_dot] ++ t).
    constructor; [apply eqb_class_inv; reflexivity|].
    constructor; [exact Hd|].
    constructor; [apply eqb_class_inv; reflexivity|exact Ht].
Qed.

(** The expression for phone numbers accepts exactly an optional [+], a
    digit from 1 to 9 and at most fifteen further digits. *)
Lemma phoneRegex_shape s : test phoneRegex s = true ↔ phoneShape s.
Proof.
  rewrite test_lang. unfold phoneRegex, phoneShape. split.
  - intros H.
    apply lang_seq_inv in H as (sign & s1 & -> & Hs & H).
    apply lang_seq_inv in H as (a & rest & -> & Ha & Hr).
    apply lang_class_inv in Ha as (first & -> & Hf).
    apply lang_upto_class in Hr as [Hlen Hall].
    apply lang_opt_inv in Hs.
    exists sign, first, rest. repeat split; auto.
    destruct Hs as [->|Hs]; [left; reflexivity|right].
    apply eqb_class_inv in Hs. exact Hs.
  - intros (sign & first & rest & -> & Hs & Hf & Hall & Hlen).
    constructor.
    + apply lang_opt_inv. destruct Hs as [->| ->]; [left; reflexivity|right].
      apply eqb_class_inv; reflexivity.
    + change (first :: rest) with ([first] ++ rest).
      constructor; [constructor; exact Hf|].
      apply lang_upto_class. split; assumption.
Qed.





End ValidationFacts.

Section ValidateFieldFacts.
Import JS FormValidator.

Lemma clearFieldError_unmarked f doc :
  unmarked (clearFieldError f doc).1.
Proof.
  unfold clearFieldError, unmarked.
  destruct (doc !! errorId f); simpl;
    (split; [apply not_elem_of_difference; right; apply elem_of_singleton; reflexivity
            |apply lookup_delete_eq]).
Qed.

Lemma showFieldError_marked f m doc :
  markedInvalid (showFieldError f m doc).1.
Proof.
  unfold showFieldError, markedInvalid.
  destruct (doc !! errorId f); simpl;
    (split; [apply elem_of_union_r, elem_of_singleton; reflexivity
            |apply lookup_insert_eq]).
Qed.

Lemma lookup_setTextContent id e text doc :
  setTextContent id e text doc !! id
  = Some {| classList := classList e; attributes := attributes e;
            textContent := text; descendants := [] |}.
Proof. apply lookup_insert_eq. Qed.

Lemma lookup_removeClass id c doc e :
  doc !! id = Some e →
  removeClass id c doc !! id
  = Some {| classList := classList e ∖ {[c]}; attributes := attributes e;
            textContent := textContent e; descendants := descendants e |}.
Proof. intros H. unfold removeClass. rewrite H. apply lookup_insert_eq. Qed.

Lemma lookup_addClass id c doc e :
  doc !! id = Some e →
  addClass id c doc !! id
  = Some {| classList := classList e ∪ {[c]}; attributes := attributes e;
            textContent := textContent e; descendants := descendants e |}.
Proof. intros H. unfold addClass. rewrite H. apply lookup_insert_eq. Qed.

(** The error element of a field after [clearFieldError]. *)
Lemma clearFieldError_lookup f doc e :
  doc !! errorId f = Some e →
  (clearFieldError f doc).2 !! errorId f
  = Some {| classList := classList e ∖ {["visible"]}; attributes := attributes e;
            textContent := ""; descendants := [] |}.
Proof.
  intros He. unfold clearFieldError. rewrite He. cbn [snd].
  rewrite (lookup_removeClass _ _ _ _ (lookup_setTextContent _ _ _ _)). reflexivity.
Qed.

(** After [clearFieldError] and [showFieldError] the error element of the
    field, when the page has one, displays the message. *)
Lemma showFieldError_displays f m doc :
  is_Some (doc !! errorId f) →
  displays (showFieldError (clearFieldError f doc).1 m (clearFieldError f doc).2).2 f m.
Proof.
  intros [e He]. pose proof (clearFieldError_lookup f doc e He) as Hc.
  unfold showFieldError, displays.
  replace (errorId (clearFieldError f doc).1) with (errorId f)
    by (unfold clearFieldError; destruct (doc !! errorId f); reflexivity).
  rewrite Hc. cbn [snd].
  rewrite (lookup_addClass _ _ _ _ (lookup_setTextContent _ _ _ _)).
  eexists. split; [reflexivity|]. simpl.
  split; [reflexivity|apply elem_of_union_r, elem_of_singleton; reflexivity].
Qed.

Lemma validateField_unfold f doc :
  validateField f doc =
  if (verdict f).1
  then (true, (clearFieldError f doc).1, (clearFieldError f doc).2)
  else (false,
        (showFieldError (clearFieldError f doc).1 (verdict f).2 (clearFieldError f doc).2).1,
        (showFieldError (clearFieldError f doc).1 (verdict f).2 (clearFieldError f doc).2).2).
Proof.
  unfold validateField. destruct (verdict f) as [[|] m]; simpl.
  - destruct (clearFieldError f doc); reflexivity.
  - destruct (clearFieldError f doc) as [f1 d1]; simpl.
    destruct (showFieldError f1 m d1); reflexivity.
Qed.


(** C9, as amended. An e-mail field whose value is [not-an-email] fails
    validation with the message "Please enter a valid email address.": the
    result is [false] and the field is marked invalid; the error element of
    the field displays that message when the page has it, and no message is
    shown when the page has none.  With the value [user@example.com] the
    field passes. *)
Theorem validateField_email_examples f doc :
  type f = "email" →
  (value f = lit "not-an-email" →
   verdict f = (false, "Please enter a valid email address.") ∧
   (validateField f doc).1.1 = false ∧
   markedInvalid (validateField f doc).1.2 ∧
   (is_Some (doc !! errorId f) →
    displays (validateField f doc).2 f "Please enter a valid email address.") ∧
   (doc !! errorId f = None →
    shownMessage f (validateField f doc).2 = None ∧ (validateField f doc).2 = doc)) ∧
  (value f = lit "user@example.com" → (validateField f doc).1.1 = true).
Proof.
  intros Ht. split; intros Hv.
  - assert (Hve : verdict f = (false, emailMessage)).
    { unfold verdict. rewrite Hv, Ht.
      replace (trim (lit "not-an-email")) with (lit "not-an-email") by reflexivity.
      replace (test emailRegex (lit "not-an-email")) with false by reflexivity.
      rewrite (bool_decide_eq_false_2 (lit "not-an-email" = [])) by discriminate.
      rewrite andb_false_r. reflexivity. }
    rewrite validateField_unfold, Hve; simpl.
    split; [reflexivity|]. split; [reflexivity|].
    split; [apply showFieldError_marked|].
    split; [apply showFieldError_displays|].
    intros Hnone.
    assert (Hdoc : (showFieldError (clearFieldError f doc).1 emailMessage
                      (clearFieldError f doc).2).2 = doc).
    { unfold clearFieldError. rewrite Hnone. cbn [fst snd].
      unfold showFieldError.
      change (errorId (setNode f _)) with (errorId f). rewrite Hnone. reflexivity. }
    rewrite Hdoc. unfold shownMessage. rewrite Hnone. split; reflexivity.
  - assert (Hve : verdict f = (true, "")).
    { unfold verdict. rewrite Hv, Ht.
      replace (trim (lit "user@example.com")) with (lit "user@example.com") by reflexivity.
      replace (test emailRegex (lit "user@example.com")) with true by reflexivity.
      rewrite (bool_decide_eq_false_2 (lit "user@example.com" = [])) by discriminate.
      rewrite andb_false_r. reflexivity. }
    rewrite validateField_unfold, Hve. reflexivity.
Qed.

End ValidateFieldFacts.

Section ValidationExamples.
Import JS FormValidator Examples.


(** C9, as stated, fails: on a page without the element [email-error] the
    field with the value [not-an-email] fails validation and is marked
    invalid, but the message is shown nowhere: the page is left as it was. *)
Lemma validateField_email_message_not_shown :
  (validateField (emailField "not-an-email") ∅).1.1 = false ∧
  verdict (emailField "not-an-email") = (false, "Please enter a valid email address.") ∧
  shownMessage (emailField "not-an-email")
               (validateField (emailField "not-an-email") ∅).2 = None ∧
  (validateField (emailField "not-an-email") ∅).2 = ∅.
Proof. repeat split; reflexivity. Qed.

(** The two examples on a page that has the element [email-error]. *)
Lemma validateField_email_examples_witness :
  type (emailField "not-an-email") = "email" ∧
  (validateField (emailField "not-an-email") emailErrorPage).1.1 = false ∧
  displays (validateField (emailField "not-an-email") emailErrorPage).2
           (emailField "not-an-email") "Please enter a valid email address." ∧
  (validateField (emailField "user@example.com") emailErrorPage).1.1 = true.
Proof.
  split; [reflexivity|].
  pose proof (validateField_email_examples (emailField "not-an-email") emailErrorPage
                eq_refl) as [Hbad _].
  pose proof (validateField_email_examples (emailField "user@example.com") emailErrorPage
                eq_refl) as [_ Hgood].
  destruct (Hbad eq_refl) as (_ & Hfalse & _ & Hshown & _).
  split; [exact Hfalse|]. split; [|exact (Hgood eq_refl)].
  apply Hshown. eexists. reflexivity.
Defined.

End ValidationExamples.

(** ** Form submission *)

Section SubmitFacts.
Import JS FormValidator.
Variable textContentOf : string → string.
Variable markupOf : string → string.

(** With every field valid and a submit control, the run reaches its
    [await] with the control disabled. *)
Lemma handleSubmit_begin_valid p b :
  allValid p → submitBtn p = Some b →
  ∃ p1, handleSubmit_begin textContentOf markupOf p
          = (p1, inr (textContentOf (innerHTML b))) ∧
        submitBtn p1 = Some {| disabled := true; innerHTML := markupOf spinner |} ∧
        attached p1 = attached p ∧
        resetShadowed p1 = resetShadowed p ∧
        alerts p1 = alerts p ∧
        disabledWrites p1 = disabledWrites p ++ [true].
Proof.
  unfold allValid, handleSubmit_begin. intros Hv Hb.
  destruct (validateAll (inputs p) (document p)) as [[ok fs] doc]; simpl in *.
  subst ok; simpl. rewrite Hb. eexists. split; [reflexivity|]. simpl. auto.
Qed.

Lemma reenabled_app p p' ws :
  disabledWrites p' = disabledWrites p ++ ws →
  reenabled p p' = length (List.filter negb ws).
Proof. unfold reenabled. intros ->. rewrite drop_app_length. reflexivity. Qed.

(** The success outcome: the control is enabled again, by one assignment. *)
Lemma handleSubmit_success_reenables_once api p b :
  allValid p → submitBtn p = Some b → api = Fulfilled → attached p = true →
  resetShadowed p = false →
  (handleSubmit_with textContentOf markupOf api p).2 = Succeeded ∧
  submitBtn (handleSubmit_with textContentOf markupOf api p).1
    = Some {| disabled := false;
              innerHTML := markupOf (textContentOf (innerHTML b)) |} ∧
  reenabled p (handleSubmit_with textContentOf markupOf api p).1 = 1 ∧
  alerts (handleSubmit_with textContentOf markupOf api p).1
    = alerts p ++ [successAlert].
Proof.
  intros Hv Hb -> Ha Hr.
  destruct (handleSubmit_begin_valid p b Hv Hb)
    as (p1 & Hbegin & Hb1 & Ha1 & Hr1 & Hal & Hw).
  unfold handleSubmit_with. rewrite Hbegin.
  unfold handleSubmit_resume, showSuccessMessage, insertBefore.
  rewrite Ha1, Ha; simpl. rewrite Hr1, Hr, Hal. repeat split.
  apply (reenabled_app _ _ [true; false]). simpl.
  rewrite Hw, <- app_assoc. reflexivity.
Qed.

(** C1 on the code, the failure outcomes: the awaited call rejects, or the
    [try] block throws after the [await] (in the script as it stands, when
    [showSuccessMessage] finds no parent of the form, or when [form.reset]
    is not the method).  For every form whose fields all validate and that
    has a submit control, the [catch] block leaves the control as the [try]
    block had it: disabled, showing the spinner and never assigned again,
    so the control is not re-enabled, whereas the success outcome re-enables
    it once. *)
Theorem handleSubmit_failure_never_reenables api p b :
  allValid p → submitBtn p = Some b →
  api = Rejected ∨ attached p = false ∨ resetShadowed p = true →
  submitDisabled (handleSubmit_begin textContentOf markupOf p).1 ∧
  (handleSubmit_with textContentOf markupOf api p).2
    = (if attached p then Failed else Crashed) ∧
  submitBtn (handleSubmit_with textContentOf markupOf api p).1
    = Some {| disabled := true; innerHTML := markupOf spinner |} ∧
  reenabled p (handleSubmit_with textContentOf markupOf api p).1 = 0.
Proof.
  intros Hv Hb Hfail.
  destruct (handleSubmit_begin_valid p b Hv Hb)
    as (p1 & Hbegin & Hb1 & Ha1 & Hr1 & Hal & Hw).
  unfold handleSubmit_with. rewrite Hbegin. simpl.
  split; [unfold submitDisabled; rewrite Hb1; reflexivity|].
  assert (Hcatch : ∀ p2, submitBtn p2 = submitBtn p1 → attached p2 = attached p →
                         disabledWrites p2 = disabledWrites p1 →
                   (catch p2).2 = (if attached p then Failed else Crashed) ∧
                   submitBtn (catch p2).1
                     = Some {| disabled := true; innerHTML := markupOf spinner |} ∧
                   reenabled p (catch p2).1 = 0).
  { intros p2 Hb2 Ha2 Hw2.
    unfold catch, showErrorMessage, insertBefore; simpl. rewrite Ha2.
    destruct (attached p); simpl; (split; [reflexivity|]);
      (split; [rewrite Hb2; exact Hb1|]);
      apply (reenabled_app _ _ [true]); rewrite Hw2; exact Hw. }
  unfold handleSubmit_resume, showSuccessMessage, insertBefore.
  destruct api; [|apply Hcatch; [reflexivity|exact Ha1|reflexivity]].
  rewrite Ha1. destruct (attached p) eqn:Ha.
  - destruct Hfail as [?|[?|Hr]]; [discriminate..|].
    simpl. rewrite Hr1, Hr. apply Hcatch; simpl; [reflexivity|congruence|reflexivity].
  - apply Hcatch; [reflexivity|congruence|reflexivity].
Qed.

End SubmitFacts.

Section SubmitExamples.
Import FormValidator Examples.

(** The contact form submitted while it has no parent: the script as it
    stands, with its simulated call. *)
Lemma handleSubmit_failure_never_reenables_witness :
  allValid (contactForm false) ∧
  (Fulfilled = Rejected ∨ attached (contactForm false) = false ∨
   resetShadowed (contactForm false) = true) ∧
  submitDisabled (handleSubmit_begin id id (contactForm false)).1 ∧
  (handleSubmit id id (contactForm false)).2 = Crashed ∧
  submitBtn (handleSubmit id id (contactForm false)).1
    = Some {| disabled := true; innerHTML := spinner |} ∧
  reenabled (contactForm false) (handleSubmit id id (contactForm false)).1 = 0.
Proof.
  assert (Hv : allValid (contactForm false)) by reflexivity.
  assert (Hf : Fulfilled = Rejected ∨ attached (contactForm false) = false ∨
               resetShadowed (contactForm false) = true)
    by (right; left; reflexivity).
  split; [exact Hv|]. split; [exact Hf|].
  exact (handleSubmit_failure_never_reenables id id Fulfilled (contactForm false) _
           Hv eq_refl Hf).
Defined.

(** The same form in its outcomes: success, a throw after the [await]
    (no parent, or [form.reset] shadowed by a control), a rejected call. *)
Lemma handleSubmit_outcomes :
  (handleSubmit id id (contactForm true)).2 = Succeeded ∧
  disabledWrites (handleSubmit id id (contactForm true)).1 = [true; false] ∧
  (handleSubmit id id (contactForm false)).2 = Crashed ∧
  disabledWrites (handleSubmit id id (contactForm false)).1 = [true] ∧
  (handleSubmit_with id id Rejected (contactForm true)).2 = Failed ∧
  disabledWrites (handleSubmit_with id id Rejected (contactForm true)).1 = [true] ∧
  (handleSubmit id id shadowedForm).2 = Failed ∧
  alerts (handleSubmit id id shadowedForm).1
    = [successAlert; errorAlert submissionError] ∧
  disabledWrites (handleSubmit id id shadowedForm).1 = [true].
Proof. vm_compute. repeat split; reflexivity. Qed.

End SubmitExamples.

(** ** FAQ accordion *)

Section FAQFacts.
Import FAQ.

Lemma expanded_collapsed it : ¬ expanded (collapsed it).
Proof. intros (q & Hq & He). simpl in Hq. injection Hq as <-. discriminate. Qed.

Lemma shown_collapsed it : ¬ shown (collapsed it).
Proof. intros (a & Ha & He). simpl in Ha. injection Ha as <-. discriminate. Qed.

Lemma expanded_decide it :
  expanded it ↔ bool_decide ((question it ≫= ariaExpanded) = Some "true") = true.
Proof.
  rewrite bool_decide_eq_true. unfold expanded. split.
  - intros (q & -> & He). exact He.
  - destruct (question it) as [q|]; simpl; [eauto|discriminate].
Qed.

Lemma expanded_toggled it : expanded (toggled it) ↔ ¬ expanded it.
Proof.
  rewrite (expanded_decide it). unfold toggled, expanded; simpl.
  destruct (bool_decide _); simpl; split.
  - intros (q & Hq & He). injection Hq as <-. discriminate.
  - intros H. exfalso; apply H; reflexivity.
  - discriminate.
  - intros _. eauto.
Qed.

Lemma shown_toggled it : shown (toggled it) ↔ expanded (toggled it).
Proof.
  unfold toggled, shown, expanded; simpl.
  destruct (bool_decide _); simpl; split.
  - intros (a & Ha & He). injection Ha as <-. discriminate.
  - intros (q & Hq & He). injection Hq as <-. discriminate.
  - eauto.
  - eauto.
Qed.

Lemma wellFormed_collapsed it : wellFormed (collapsed it).
Proof. split; simpl; eauto. Qed.

Lemma wellFormed_toggled it : wellFormed (toggled it).
Proof. split; simpl; eauto. Qed.

(** On well-formed items the loop of [toggleFAQ] completes and collapses
    every item but the activated one. *)
Lemma closeOthers_wellFormed activated items : ∀ j,
  Forall wellFormed items →
  closeOthers activated j items =
    (imap (λ k it, if decide (j + k = activated) then it else collapsed it) items, true).
Proof.
  induction items as [|it rest IH]; intros j Hwf; [reflexivity|].
  apply Forall_cons in Hwf as [[[q Hq] [a Ha]] Hwf].
  simpl. rewrite (IH (S j) Hwf), Hq, Ha.
  rewrite Nat.add_0_r.
  assert (Hext : imap (λ k it0, if decide (S j + k = activated) then it0 else collapsed it0) rest
               = imap ((λ k it0, if decide (j + k = activated) then it0 else collapsed it0) ∘ S) rest).
  { apply imap_ext. intros k x _. simpl. rewrite Nat.add_succ_r. reflexivity. }
  rewrite Hext. destruct (decide (j = activated)); reflexivity.
Qed.

Lemma toggleFAQ_wellFormed items i it :
  Forall wellFormed items → items !! i = Some it →
  toggleFAQ i items =
    (<[i := toggled it]> (imap (λ k x, if decide (k = i) then x else collapsed x) items),
     true).
Proof.
  intros Hwf Hi. unfold toggleFAQ. rewrite Hi.
  destruct (proj1 (Forall_lookup _ _) Hwf i it Hi) as [[q Hq] [a Ha]].
  destruct it as [oq oa]; simpl in *; subst.
  rewrite (closeOthers_wellFormed i items 0 Hwf). reflexivity.
Qed.

Lemma activate_wellFormed items i :
  Forall wellFormed items → Forall wellFormed (activate items i).
Proof.
  intros Hwf. unfold activate.
  destruct (items !! i) as [it|] eqn:Hi.
  - rewrite (toggleFAQ_wellFormed items i it Hwf Hi); simpl.
    apply Forall_insert; [|apply wellFormed_toggled].
    apply Forall_lookup. intros k x Hk.
    rewrite list_lookup_imap in Hk.
    destruct (items !! k) as [y|] eqn:Hy; simpl in Hk; [|discriminate].
    injection Hk as <-. destruct (decide (k = i)); [|apply wellFormed_collapsed].
    eapply Forall_lookup in Hwf; eauto.
  - unfold toggleFAQ. rewrite Hi. exact Hwf.
Qed.

(** The state of every item after an activation. *)
Lemma activate_lookup items i it j it' :
  Forall wellFormed items → items !! i = Some it →
  activate items i !! j = Some it' →
  (expanded it' ↔ j = i ∧ ¬ expanded it) ∧ (shown it' ↔ expanded it').
Proof.
  intros Hwf Hi Hj. unfold activate in Hj.
  rewrite (toggleFAQ_wellFormed items i it Hwf Hi) in Hj; simpl in Hj.
  destruct (decide (j = i)) as [->|Hne].
  - rewrite list_lookup_insert_eq in Hj.
    + injection Hj as <-. rewrite shown_toggled, expanded_toggled. tauto.
    + rewrite length_imap. eapply lookup_lt_Some; eauto.
  - rewrite list_lookup_insert_ne in Hj by congruence.
    rewrite list_lookup_imap in Hj.
    destruct (items !! j) as [y|]; simpl in Hj; [|discriminate].
    injection Hj as <-. destruct (decide (j = i)); [contradiction|].
    pose proof (expanded_collapsed y). pose proof (shown_collapsed y). tauto.
Qed.

(** After an activation only the activated item can be expanded. *)
Lemma activate_atMostOne items i it :
  Forall wellFormed items → items !! i = Some it →
  atMostOneExpanded (activate items i).
Proof.
  intros Hwf Hi j k it1 it2 Hj Hk H1 H2.
  apply (activate_lookup items i it j it1 Hwf Hi Hj) in H1 as [-> _].
  apply (activate_lookup items i it k it2 Hwf Hi Hk) in H2 as [-> _].
  reflexivity.
Qed.

(** An activation on an index that holds no item has no handler. *)
Lemma activate_out_of_range items i :
  items !! i = None → activate items i = items.
Proof. intros Hi. unfold activate, toggleFAQ. rewrite Hi. reflexivity. Qed.

Lemma activations_invariant clicks : ∀ items,
  Forall wellFormed items → atMostOneExpanded items →
  Forall wellFormed (activations clicks items) ∧
  atMostOneExpanded (activations clicks items).
Proof.
  induction clicks as [|i clicks IH]; intros items Hwf Hone; [auto|].
  simpl. apply IH; [apply activate_wellFormed; exact Hwf|].
  destruct (items !! i) as [it|] eqn:Hi.
  - eapply activate_atMostOne; eauto.
  - rewrite (activate_out_of_range _ _ Hi). exact Hone.
Qed.

(** X21. On a page whose FAQ items each have a question and an answer: if
    at most one item is expanded at the start, at most one is expanded after
    any sequence of activations; and an activation of the item [i], found in
    the state [it], leaves the items well formed, at most one of them
    expanded, and an item expanded exactly when it is the item [i] and [it]
    was collapsed: a collapsed item opens and every other item closes, the
    expanded item closes.  The answer of an item is displayed exactly when
    the item is expanded. *)
Theorem faq_single_open_full_toggle items :
  Forall wellFormed items →
  (atMostOneExpanded items →
   ∀ clicks, atMostOneExpanded (activations clicks items)) ∧
  (∀ i it,
     items !! i = Some it →
     Forall wellFormed (activate items i) ∧
     atMostOneExpanded (activate items i) ∧
     ∀ j it',
       activate items i !! j = Some it' →
       (expanded it' ↔ j = i ∧ ¬ expanded it) ∧ (shown it' ↔ expanded it')).
Proof.
  intros Hwf. split.
  - intros Hone clicks. apply activations_invariant; assumption.
  - intros i it Hi. split; [apply activate_wellFormed, Hwf|].
    split; [eapply activate_atMostOne; eauto|].
    intros j it' Hj. eapply activate_lookup; eauto.
Qed.

(** The loop of [toggleFAQ] throws at an item other than the activated
    one that lacks its question or its answer. *)
Lemma closeOthers_throws activated items : ∀ j k it,
  items !! k = Some it → j + k ≠ activated → ¬ wellFormed it →
  (closeOthers activated j items).2 = false.
Proof.
  induction items as [|it0 items IH]; intros j k it Hk Hne Hwf; [discriminate|].
  simpl. destruct k as [|k]; simpl in Hk.
  - injection Hk as ->. rewrite Nat.add_0_r in Hne.
    destruct (decide (j = activated)); [contradiction|].
    destruct (question it) as [q|] eqn:Hq; [|reflexivity].
    destruct (answer it) as [a|] eqn:Ha; [|reflexivity].
    exfalso. apply Hwf. unfold wellFormed. rewrite Hq, Ha. eauto.
  - assert (Hrest : (closeOthers activated (S j) items).2 = false)
      by (apply (IH (S j) k it Hk); [lia|exact Hwf]).
    destruct (decide (j = activated)).
    + destruct (closeOthers activated (S j) items). simpl in *. exact Hrest.
    + destruct (question it0); [|reflexivity].
      destruct (answer it0); [|reflexivity].
      destruct (closeOthers activated (S j) items). simpl in *. exact Hrest.
Qed.

(** The loop leaves the activated item as it found it. *)
Lemma closeOthers_activated activated items : ∀ j i it,
  items !! i = Some it → j + i = activated →
  (closeOthers activated j items).1 !! i = Some it.
Proof.
  induction items as [|it0 items IH]; intros j i it Hi Heq; [discriminate|].
  simpl. destruct i as [|i]; simpl in Hi.
  - injection Hi as ->. rewrite Nat.add_0_r in Heq.
    destruct (decide (j = activated)); [|contradiction].
    destruct (closeOthers activated (S j) items). reflexivity.
  - assert (Hrest : (closeOthers activated (S j) items).1 !! i = Some it)
      by (apply IH; [exact Hi|lia]).
    destruct (decide (j = activated)); [lia|].
    destruct (question it0); [|exact Hi].
    destruct (answer it0); [|exact Hi].
    destruct (closeOthers activated (S j) items). simpl in *. exact Hrest.
Qed.

(** C5 on the code. On a page that holds an item without its question or
    without its answer, the activation of any other item ends in a
    [TypeError] inside the loop that closes the other items, before the
    toggle: the activated item is left as it was, so that a collapsed item
    stays collapsed. *)
Theorem toggleFAQ_throws_on_incomplete_item items i it k it' :
  items !! i = Some it → wellFormed it →
  items !! k = Some it' → k ≠ i → ¬ wellFormed it' →
  (toggleFAQ i items).2 = false ∧
  (toggleFAQ i items).1 !! i = Some it ∧
  (expanded it ↔ ∃ it1, (toggleFAQ i items).1 !! i = Some it1 ∧ expanded it1).
Proof.
  intros Hi [[q Hq] [a Ha]] Hk Hne Hwf.
  assert (Hthrow : (closeOthers i 0 items).2 = false)
    by (apply (closeOthers_throws i items 0 k it' Hk); [simpl; exact Hne|exact Hwf]).
  assert (Hkeep : (closeOthers i 0 items).1 !! i = Some it)
    by (apply closeOthers_activated; [exact Hi|reflexivity]).
  assert (Hrun : toggleFAQ i items = ((closeOthers i 0 items).1, false)).
  { unfold toggleFAQ. rewrite Hi. destruct it as [oq oa]. simpl in Hq, Ha. subst.
    destruct (closeOthers i 0 items) as [items1 ok]. simpl in Hthrow. subst ok.
    reflexivity. }
  rewrite Hrun. cbn [fst snd].
  split; [reflexivity|]. split; [exact Hkeep|].
  split.
  - intros He. exists it. split; [exact Hkeep|exact He].
  - intros (it1 & H1 & He). rewrite Hkeep in H1. injection H1 as <-. exact He.
Qed.

End FAQFacts.

Section FAQExamples.
Import FAQ Examples.

(** Three items, the second one expanded at the start. *)
Lemma faq_single_open_full_toggle_witness :
  Forall wellFormed faqPage ∧
  atMostOneExpanded faqPage ∧
  atMostOneExpanded (activations [0; 0; 1; 2] faqPage) ∧
  atMostOneExpanded (activate faqPage 0).
Proof.
  assert (Hwf : Forall wellFormed faqPage) by (repeat constructor; simpl; eauto).
  assert (Hone : atMostOneExpanded faqPage).
  { intros j k it1 it2 Hj Hk (q1 & Hq1 & He1) (q2 & Hq2 & He2).
    destruct j as [|[|[|j]]]; destruct k as [|[|[|k]]];
      simplify_eq/=; reflexivity. }
  destruct (faq_single_open_full_toggle faqPage Hwf) as [Hseq Hact].
  split; [exact Hwf|]. split; [exact Hone|].
  split; [exact (Hseq Hone [0; 0; 1; 2])|].
  exact (proj1 (proj2 (Hact 0 _ eq_refl))).
Defined.

(** A page whose second item has lost its answer: a click on the first
    question, which is collapsed, throws and leaves the item collapsed. *)
Lemma toggleFAQ_throws_on_incomplete_item_witness :
  brokenFaqPage !! 0 = Some (faqItem false) ∧
  wellFormed (faqItem false) ∧
  (∃ it', brokenFaqPage !! 1 = Some it' ∧ ¬ wellFormed it') ∧
  toggleFAQ 0 brokenFaqPage = (brokenFaqPage, false) ∧
  (toggleFAQ 0 brokenFaqPage).2 = false ∧
  (toggleFAQ 0 brokenFaqPage).1 !! 0 = Some (faqItem false) ∧
  ¬ expanded (faqItem false).
Proof.
  assert (Hwf : wellFormed (faqItem false)) by (split; simpl; eauto).
  assert (Hbad : ¬ wellFormed {| question := Some {| ariaExpanded := Some "false" |};
                                 answer := None |}).
  { intros [_ [a Ha]]. discriminate. }
  destruct (toggleFAQ_throws_on_incomplete_item brokenFaqPage 0 (faqItem false) 1 _
              eq_refl Hwf eq_refl (Nat.neq_succ_0 0) Hbad) as (Hthrow & Hkeep & _).
  split; [reflexivity|]. split; [exact Hwf|].
  split; [eexists; split; [reflexivity|exact Hbad]|].
  split; [reflexivity|]. split; [exact Hthrow|]. split; [exact Hkeep|].
  intros (q & Hq & He). simpl in Hq. injection Hq as <-. discriminate.
Defined.

End FAQExamples.

(** ** Mobile menu *)

Section NavigationFacts.
Import Navigation.




End NavigationFacts.

Section NavigationExamples.
Import Navigation.


End NavigationExamples.

(** ** Lazy image loader *)

Section LazyLoaderFacts.
Import LazyLoader.





Lemma loadAllImages_loads images : ∀ st,
  loads (loadAllImages images st) = loads st ++ images ∧
  observed (loadAllImages images st) = observed st.
Proof.
  unfold loadAllImages.
  induction images as [|i images IH]; intros st; simpl.
  - rewrite app_nil_r. auto.
  - destruct (IH (loadImage i st)) as [-> ->]. simpl.
    rewrite <- app_assoc. auto.
Qed.




End LazyLoaderFacts.

Section LazyLoaderExamples.
Import LazyLoader Examples.



End LazyLoaderExamples.


(** ** Smooth scrolling *)

Section SmoothScrollFacts.
Import SmoothScroll.
Local Open Scope Q_scope.

Lemma half_mult (d : Q) : d / 2 == (1 # 2) * d.
Proof. field. Qed.

(** The test [t < 1] of [ease] after [t /= d / 2]: the first branch is
    taken before half of the duration. *)
Lemma ease_branch t d :
  0 < d → (Qle_bool 1 (t / (d / 2)) = true ↔ d / 2 <= t).
Proof.
  intros Hd. rewrite Qle_bool_iff.
  assert (Hh : 0 < d / 2) by (apply Qlt_shift_div_l; lra).
  split; intros H.
  - apply (Qmult_le_compat_r _ _ (d / 2)) in H; [|lra].
    assert (Heq : t / (d / 2) * (d / 2) == t) by (field; lra).
    rewrite Heq in H. lra.
  - apply Qle_shift_div_l; [exact Hh|lra].
Qed.

Lemma ease_second_half t b c d :
  0 < d → d / 2 <= t →
  ease t b c d == b + c - 2 * c * ((t - d) / d) * ((t - d) / d).
Proof.
  intros Hd Ht. unfold ease.
  rewrite (proj2 (ease_branch t d Hd) Ht). field. lra.
Qed.

Lemma ease_first_half t b c d :
  0 < d → t < d / 2 →
  ease t b c d == b + 2 * c * (t / d) * (t / d).
Proof.
  intros Hd Ht. unfold ease.
  destruct (Qle_bool 1 (t / (d / 2))) eqn:Hb.
  - apply ease_branch in Hb; [lra|exact Hd].
  - field. lra.
Qed.

(** X1. For a positive duration, [ease] starts at the start position, is
    half way at half of the duration and is on the target, start plus
    distance, at the duration. *)
Theorem ease_reaches_target b c d :
  0 < d →
  ease 0 b c d == b ∧ ease (d / 2) b c d == b + c / 2 ∧ ease d b c d == b + c.
Proof.
  intros Hd. pose proof (half_mult d) as Hhalf.
  assert (Hh : 0 < d / 2) by lra.
  assert (Hle : d / 2 <= d) by lra.
  repeat split.
  - rewrite (ease_first_half 0 b c d Hd Hh). field. lra.
  - rewrite (ease_second_half (d / 2) b c d Hd (Qle_refl _)). field. lra.
  - rewrite (ease_second_half d b c d Hd Hle). field. lra.
Qed.

Lemma square_quarter (u : Q) : - (1 # 2) <= u → u <= 1 # 2 → u * u <= 1 # 4.
Proof. intros H1 H2. nra. Qed.

(** X2. Between the start of the animation and its duration the position
    never leaves the interval between the start and the target, whether the
    page scrolls down ([0 <= c]) or up ([c <= 0]). *)
Theorem ease_between t b c d :
  0 < d → 0 <= t → t <= d →
  (0 <= c → b <= ease t b c d ∧ ease t b c d <= b + c) ∧
  (c <= 0 → b + c <= ease t b c d ∧ ease t b c d <= b).
Proof.
  intros Hd H0 H1. pose proof (half_mult d) as Hhalf.
  destruct (Qlt_le_dec t (d / 2)) as [Hlt|Hge].
  - rewrite (ease_first_half t b c d Hd Hlt).
    set (u := t / d).
    assert (Hu0 : 0 <= u) by (apply Qle_shift_div_l; lra).
    assert (Hu1 : u <= 1 # 2) by (apply Qle_shift_div_r; lra).
    pose proof (square_quarter u ltac:(lra) Hu1) as Hq.
    assert (Hsq : 0 <= u * u) by nra.
    split; intros Hc; split; nra.
  - rewrite (ease_second_half t b c d Hd Hge).
    set (v := (t - d) / d).
    assert (Hv0 : - (1 # 2) <= v) by (apply Qle_shift_div_l; lra).
    assert (Hv1 : v <= 0) by (apply Qle_shift_div_r; lra).
    pose proof (square_quarter v Hv0 ltac:(lra)) as Hq.
    assert (Hsq : 0 <= v * v) by nra.
    split; intros Hc; split; nra.
Qed.

End SmoothScrollFacts.

Section SmoothScrollExamples.
Import SmoothScroll.
Local Open Scope Q_scope.

(** A scroll from the top to a target 400 pixels down, in the 800 ms of
    [smoothScrollTo]: position 100 after 200 ms, 300 after 600 ms. *)
Lemma ease_between_witness :
  (0 < 800 ∧ 0 <= 200 ∧ 200 <= 800) ∧
  ((0 <= 400 → 0 <= ease 200 0 400 800 ∧ ease 200 0 400 800 <= 0 + 400) ∧
   (400 <= 0 → 0 + 400 <= ease 200 0 400 800 ∧ ease 200 0 400 800 <= 0)).
Proof.
  assert (H1 : 0 < 800) by reflexivity.
  assert (H2 : 0 <= 200) by (vm_compute; discriminate).
  assert (H3 : 200 <= 800) by (vm_compute; discriminate).
  split; [tauto|].
  exact (ease_between 200 0 400 800 H1 H2 H3).
Defined.

Lemma ease_reaches_target_witness :
  0 < 800 ∧
  ease 0 0 400 800 == 0 ∧ ease (800 / 2) 0 400 800 == 0 + 400 / 2 ∧
  ease 800 0 400 800 == 0 + 400.
Proof.
  assert (H1 : 0 < 800) by reflexivity.
  split; [exact H1|].
  exact (ease_reaches_target 0 400 800 H1).
Defined.

End SmoothScrollExamples.

(** ** Frames of the scroll animation *)

Section ScrollAnimationFacts.
Import Number ScrollAnimation.

Lemma play_stopped k ticks st :
  requested st = false → play k ticks st = st.
Proof. intros H. destruct ticks; simpl; [reflexivity|]. rewrite H. reflexivity. Qed.

(** The frames at which the elapsed time is below the duration keep the
    animation going. *)
Lemma play_early k t0 rest early : ∀ pos n,
  Forall (λ t, ltb (sub t t0) (duration k) = true) early →
  ∃ pos',
    play k (early ++ rest)
      {| startTime := Some t0; position := pos; frames := n; requested := true |}
    = play k rest
        {| startTime := Some t0; position := pos';
           frames := n + length early; requested := true |}.
Proof.
  induction early as [|t early IH]; intros pos n Hall.
  - exists pos. simpl. rewrite Nat.add_0_r. reflexivity.
  - apply Forall_cons in Hall as [Ht Hall].
    cbn [app play requested]. unfold animation at 1. cbn [startTime frames].
    rewrite Ht.
    destruct (IH (ease (sub t t0) (startPosition k) (distance k) (duration k))
                (S n) Hall) as [pos' ->].
    exists pos'. cbn [length]. rewrite Nat.add_succ_r. reflexivity.
Qed.

(** X3. The animation takes the time of its first frame as the start and
    runs on every frame up to and including the first one at which the
    elapsed time, as the host computes it, is not below the duration; it
    requests no frame after that one and ignores the frames that follow.
    The last position it passes to [window.scrollTo] is the one that [ease]
    gives for the elapsed time of that last frame, which is not cut down to
    the duration. *)
Theorem smoothScroll_last_frame offsetTop offset d y t0 early tl rest :
  head (early ++ [tl]) = Some t0 →
  Forall (λ t, ltb (sub t t0) d = true) early →
  ltb (sub tl t0) d = false →
  play (smoothScrollTo offsetTop offset d y).1 (early ++ tl :: rest)
       (smoothScrollTo offsetTop offset d y).2
  = {| startTime := Some t0;
       position := ease (sub tl t0) y (sub (sub offsetTop offset) y) d;
       frames := S (length early);
       requested := false |}.
Proof.
  intros Hhead Hearly Hlast. unfold smoothScrollTo. cbn [fst snd].
  set (k := {| startPosition := y; distance := sub (sub offsetTop offset) y;
               duration := d |}).
  destruct early as [|t early].
  - injection Hhead as ->. cbn [app play requested]. unfold animation at 1.
    cbn [startTime frames]. change (duration k) with d. rewrite Hlast.
    rewrite play_stopped by reflexivity. reflexivity.
  - injection Hhead as ->. apply Forall_cons in Hearly as [Ht Hearly].
    cbn [app play requested]. unfold animation at 1. cbn [startTime frames].
    change (duration k) with d. rewrite Ht.
    destruct (play_early k t0 (tl :: rest) early
                (ease (sub t0 t0) (startPosition k) (distance k) d) 1 Hearly)
      as [pos' ->].
    cbn [play requested]. unfold animation at 1. cbn [startTime frames].
    change (duration k) with d. rewrite Hlast.
    rewrite play_stopped by reflexivity. reflexivity.
Qed.

End ScrollAnimationFacts.

Section ScrollAnimationExamples.
Import Number ScrollAnimation Examples.

(** A scroll of 800 ms from the top to an element 480 pixels down, with an
    offset of 80.  The first frame comes at 0.3 ms; at the frame of 800.3 ms
    the elapsed time is computed as 800, so that the animation stops there,
    after three frames, on the target 400. *)
Lemma smoothScroll_last_frame_witness :
  head ([time03; time4003] ++ [time8003]) = Some time03 ∧
  Forall (λ t, ltb (sub t time03) (ofZ 800) = true) [time03; time4003] ∧
  ltb (sub time8003 time03) (ofZ 800) = false ∧
  sub time8003 time03 = ofZ 800 ∧
  play (smoothScrollTo (ofZ 480) (ofZ 80) (ofZ 800) (ofZ 0)).1
       [time03; time4003; time8003; time8163]
       (smoothScrollTo (ofZ 480) (ofZ 80) (ofZ 800) (ofZ 0)).2
  = {| startTime := Some time03; position := ofZ 400; frames := 3;
       requested := false |}.
Proof.
  assert (H1 : head ([time03; time4003] ++ [time8003]) = Some time03) by reflexivity.
  assert (H2 : Forall (λ t, ltb (sub t time03) (ofZ 800) = true) [time03; time4003])
    by (repeat constructor).
  assert (H3 : ltb (sub time8003 time03) (ofZ 800) = false) by reflexivity.
  split; [exact H1|]. split; [exact H2|]. split; [exact H3|].
  split; [reflexivity|].
  exact (smoothScroll_last_frame (ofZ 480) (ofZ 80) (ofZ 800) (ofZ 0) time03
           [time03; time4003] time8003 [time8163] H1 H2 H3).
Defined.

End ScrollAnimationExamples.

(** ** Focus trap *)

Section FocusTrapFacts.
Import FocusTrap.

Lemma same_true active x :
  same active x = true ↔ ∃ a, active = Some a ∧ x = Some a.
Proof.
  unfold same. destruct active as [a|], x as [b|]; split;
    try discriminate; try (intros (? & ? & ?); discriminate).
  - intros H. apply bool_decide_eq_true_1 in H as ->. eauto.
  - intros (c & [= ->] & [= ->]). apply bool_decide_eq_true_2. reflexivity.
Qed.

(** Running the listener once more changes nothing. *)
Lemma onKeydown_twice focusable e st :
  onKeydown focusable e (onKeydown focusable e st) = onKeydown focusable e st.
Proof.
  unfold onKeydown.
  destruct (negb (bool_decide (key e = "Tab") || (keyCode e =? 9))); [reflexivity|].
  destruct (shiftKey e).
  - destruct (same (activeElement st) (firstElement focusable)) eqn:H1; simpl.
    + destruct (same (lastElement focusable) (firstElement focusable)); reflexivity.
    + rewrite H1. reflexivity.
  - destruct (same (activeElement st) (lastElement focusable)) eqn:H1; simpl.
    + destruct (same (firstElement focusable) (lastElement focusable)); reflexivity.
    + rewrite H1. reflexivity.
Qed.

Lemma onKeydown_iter n focusable e st :
  Nat.iter (S n) (onKeydown focusable e) st = onKeydown focusable e st.
Proof.
  induction n as [|n IH]; [reflexivity|].
  change (Nat.iter (S (S n)) (onKeydown focusable e) st)
    with (onKeydown focusable e (Nat.iter (S n) (onKeydown focusable e) st)).
  rewrite IH. apply onKeydown_twice.
Qed.

(** X4. Every opening of the menu sets one more trap on the panel; however
    many listeners are attached, a key press leaves the focus, the event and
    the element that ends up focused as a single listener does. *)
Theorem trap_listeners_act_as_one n focusable order e :
  (∀ st, Nat.iter (S n) (onKeydown focusable e) st = onKeydown focusable e st) ∧
  (∀ a, pressTab (S n) focusable order e a = pressTab 1 focusable order e a).
Proof.
  split; [intros st; apply onKeydown_iter|].
  intros a. unfold pressTab. rewrite !onKeydown_iter. reflexivity.
Qed.

Lemma last_cons_nonempty (a b : nat) l : last (a :: b :: l) = last (b :: l).
Proof. reflexivity. Qed.

(** Inside a run of the tab order, the element after one that is not the
    last of the run belongs to the run. *)
Lemma next_in_run focusable after : ∀ x,
  NoDup (focusable ++ after) → x ∈ focusable → last focusable ≠ Some x →
  ∃ y, next (focusable ++ after) x = Some y ∧ y ∈ focusable.
Proof.
  induction focusable as [|a [|b focusable] IH]; intros x Hnd Hin Hlast.
  - inversion Hin.
  - apply list_elem_of_singleton in Hin as ->. simpl in Hlast. congruence.
  - change ((a :: b :: focusable) ++ after) with (a :: b :: (focusable ++ after)).
    cbn [next]. destruct (decide (a = x)) as [->|Hne].
    + exists b. split; [reflexivity|]. apply elem_of_cons. right. apply elem_of_cons. auto.
    + apply elem_of_cons in Hin as [->|Hin]; [congruence|].
      apply NoDup_cons in Hnd as [_ Hnd].
      destruct (IH x Hnd Hin Hlast) as (y & Hy & Hyin).
      exists y. split; [exact Hy|]. apply elem_of_cons. auto.
Qed.

Lemma next_skip before rest x :
  x ∉ before → rest ≠ [] → next (before ++ rest) x = next rest x.
Proof.
  intros Hx Hrest. induction before as [|a before IH]; [reflexivity|].
  apply not_elem_of_cons in Hx as [Hne Hx]. specialize (IH Hx).
  change ((a :: before) ++ rest) with (a :: (before ++ rest)).
  destruct (before ++ rest) as [|b l] eqn:Heq.
  - apply app_eq_nil in Heq as [_ ?]. contradiction.
  - cbn [next]. destruct (decide (a = x)); [congruence|exact IH].
Qed.

Lemma next_in_order before focusable after x :
  NoDup (before ++ focusable ++ after) → x ∈ focusable → last focusable ≠ Some x →
  ∃ y, next (before ++ focusable ++ after) x = Some y ∧ y ∈ focusable.
Proof.
  intros Hnd Hin Hlast.
  apply NoDup_app in Hnd as (_ & Hdisj & Hnd).
  rewrite next_skip.
  - apply next_in_run; assumption.
  - intros Hb. apply (Hdisj x Hb). apply elem_of_app. auto.
  - destruct focusable; [inversion Hin|discriminate].
Qed.

(** X5. While at least one trap is set, a press of Tab or of Shift+Tab on
    an element of the container leaves the focus in the container, provided
    the elements that the trap found are those that the host visits in the
    container, in that order: the focus wraps from the last to the first
    and from the first to the last, and moves to a neighbour otherwise. *)
Theorem trap_keeps_focus_inside n before focusable after e active :
  NoDup (before ++ focusable ++ after) →
  active ∈ focusable →
  key e = "Tab" →
  ∃ x, pressTab (S n) focusable (before ++ focusable ++ after) e active = Some x ∧
       x ∈ focusable ∧
       (shiftKey e = false → last focusable = Some active → head focusable = Some x) ∧
       (shiftKey e = true → head focusable = Some active → last focusable = Some x).
Proof.
  intros Hnd Hin Hkey. unfold pressTab.
  rewrite onKeydown_iter.
  unfold onKeydown. rewrite (bool_decide_eq_true_2 _ Hkey). cbn [orb negb].
  cbn [activeElement].
  assert (Hhead : ∃ h, head focusable = Some h ∧ h ∈ focusable).
  { destruct focusable as [|h l]; [inversion Hin|].
    exists h. split; [reflexivity|]. apply elem_of_cons; auto. }
  assert (Hlast : ∃ l, last focusable = Some l ∧ l ∈ focusable).
  { destruct (last focusable) as [l|] eqn:Hl.
    - exists l. split; [reflexivity|]. apply last_Some_elem_of; exact Hl.
    - apply last_None in Hl. subst. inversion Hin. }
  destruct Hhead as (h & Hh & Hhin). destruct Hlast as (l & Hl & Hlin).
  unfold firstElement, lastElement. rewrite Hh, Hl.
  destruct (shiftKey e) eqn:Hshift.
  - destruct (same (Some active) (Some h)) eqn:Hs.
    + exists l. unfold defaultAction; simpl.
      split; [reflexivity|]. split; [exact Hlin|]. split; [discriminate|auto].
    + assert (Hne : h ≠ active).
      { intros ->. rewrite (proj2 (same_true (Some active) (Some active))) in Hs
          by eauto. discriminate. }
      unfold defaultAction; simpl. rewrite Hshift.
      assert (Hrev : reverse (before ++ focusable ++ after)
                     = reverse after ++ reverse focusable ++ reverse before)
        by (rewrite !reverse_app, <- app_assoc; reflexivity).
      destruct (next_in_order (reverse after) (reverse focusable) (reverse before) active)
        as (y & Hy & Hyin).
      * rewrite <- Hrev, reverse_Permutation. exact Hnd.
      * apply elem_of_reverse. exact Hin.
      * rewrite last_reverse, Hh. congruence.
      * rewrite Hrev, Hy. rewrite elem_of_reverse in Hyin.
        exists y. split; [reflexivity|]. split; [exact Hyin|].
        split; [discriminate|]. intros _ Heq. congruence.
  - destruct (same (Some active) (Some l)) eqn:Hs.
    + exists h. unfold defaultAction; simpl.
      split; [reflexivity|]. split; [exact Hhin|]. split; [auto|discriminate].
    + assert (Hne : l ≠ active).
      { intros ->. rewrite (proj2 (same_true (Some active) (Some active))) in Hs
          by eauto. discriminate. }
      unfold defaultAction; simpl. rewrite Hshift.
      destruct (next_in_order before focusable after active) as (y & Hy & Hyin);
        [exact Hnd|exact Hin|rewrite Hl; congruence|].
      rewrite Hy. exists y. split; [reflexivity|]. split; [exact Hyin|].
      split; [|discriminate]. intros _ Heq. congruence.
Qed.

End FocusTrapFacts.

Section FocusTrapExamples.
Import FocusTrap.

(** A panel with the links 2, 3 and 4 between the elements 1 and 5 of the
    page, and two traps set: Tab on the last link goes to the first,
    Shift+Tab on the first goes to the last. *)
Lemma trap_keeps_focus_inside_witness :
  NoDup ([1] ++ [2; 3; 4] ++ [5]) ∧ 4 ∈ [2; 3; 4] ∧
  pressTab 2 [2; 3; 4] ([1] ++ [2; 3; 4] ++ [5])
    {| key := "Tab"; keyCode := 9; shiftKey := false |} 4 = Some 2 ∧
  ∃ x, pressTab 2 [2; 3; 4] ([1] ++ [2; 3; 4] ++ [5])
         {| key := "Tab"; keyCode := 9; shiftKey := false |} 4 = Some x ∧
       x ∈ [2; 3; 4].
Proof.
  assert (Hnd : NoDup ([1] ++ [2; 3; 4] ++ [5]))
    by (apply NoDup_ListNoDup; repeat constructor; simpl; intuition lia).
  assert (Hin : 4 ∈ [2; 3; 4]) by (apply list_elem_of_In; simpl; auto).
  split; [exact Hnd|]. split; [exact Hin|]. split; [reflexivity|].
  destruct (trap_keeps_focus_inside 1 [1] [2; 3; 4] [5]
              {| key := "Tab"; keyCode := 9; shiftKey := false |} 4 Hnd Hin eq_refl)
    as (x & Hx & Hxin & _).
  exists x. split; assumption.
Defined.

End FocusTrapExamples.

(** ** Listeners of the mobile menu *)

Section MenuListenerFacts.
Import Navigation MenuCycles.

Lemma perform_focusTraps st o : focusTraps st ≤ focusTraps (perform st o).
Proof.
  destruct o; simpl; unfold toggleMobileMenu;
    try destruct (isMenuOpen st); simpl; lia.
Qed.

Lemma performAll_focusTraps os : ∀ st, focusTraps st ≤ focusTraps (performAll os st).
Proof.
  induction os as [|o os IH]; intros st; simpl; [lia|].
  etransitivity; [apply (perform_focusTraps st o)|apply IH].
Qed.

Lemma cycle_closed st :
  isMenuOpen st = false →
  perform (perform st Toggle) Toggle = closeMobileMenu (openMobileMenu st).
Proof. intros H. simpl. unfold toggleMobileMenu. rewrite H. reflexivity. Qed.

Lemma cycles_closed n : ∀ st,
  isMenuOpen st = false →
  focusTraps (performAll (cycles n) st) = focusTraps st + n ∧
  isMenuOpen (performAll (cycles n) st) = false.
Proof.
  induction n as [|n IH]; intros st Hclosed.
  - simpl. split; [lia|exact Hclosed].
  - change (performAll (cycles (S n)) st)
      with (performAll (cycles n) (perform (perform st Toggle) Toggle)).
    rewrite (cycle_closed st Hclosed).
    destruct (IH (closeMobileMenu (openMobileMenu st)) eq_refl) as [-> ->].
    simpl. split; [lia|reflexivity].
Qed.

(** X6. No operation on the menu removes a [keydown] listener from the
    panel, and every opening attaches one more: after [n] cycles of opening
    and closing a closed menu, [n] more listeners are attached and the menu is
    closed again. *)
Theorem menu_listeners_accumulate n os st :
  isMenuOpen st = false →
  focusTraps st ≤ focusTraps (performAll os st) ∧
  focusTraps (performAll (cycles n) st) = focusTraps st + n ∧
  isMenuOpen (performAll (cycles n) st) = false ∧
  focusTraps (openMobileMenu (performAll (cycles n) st)) = focusTraps st + S n.
Proof.
  intros Hclosed. split; [apply performAll_focusTraps|].
  destruct (cycles_closed n st Hclosed) as [Hn Hc].
  split; [exact Hn|]. split; [exact Hc|]. simpl. rewrite Hn. lia.
Qed.

End MenuListenerFacts.

Section MenuListenerExamples.
Import Navigation MenuCycles.

(** Three cycles on the controller as constructed. *)
Lemma menu_listeners_accumulate_witness :
  isMenuOpen (initial 2 Elsewhere) = false ∧
  focusTraps (performAll (cycles 3) (initial 2 Elsewhere)) = 3 ∧
  focusTraps (initial 2 Elsewhere)
    ≤ focusTraps (performAll [Open; EscapeKey; Toggle] (initial 2 Elsewhere)).
Proof.
  split; [reflexivity|].
  destruct (menu_listeners_accumulate 3 [Open; EscapeKey; Toggle]
              (initial 2 Elsewhere) eq_refl) as (Hmono & Hn & _).
  split; [exact Hn|exact Hmono].
Defined.

End MenuListenerExamples.

(** ** Back-to-top control behind the throttle *)

Section BackToTopFacts.
Import BackToTop.

Lemma handleScroll_visible y st :
  visible (handleScroll y st) = negb (Qle_bool y BACK_TO_TOP_THRESHOLD).
Proof. unfold handleScroll. destruct (Qle_bool y BACK_TO_TOP_THRESHOLD); reflexivity. Qed.

(** The calls that a throttle lets through over two windows. *)
Lemma simulate_two_windows {A : Type} limit t0 (a0 : A) evs t1 a1 evs' :
  Throttle.within limit t0 evs → t0 + limit ≤ t1 → Throttle.within limit t1 evs' →
  Throttle.calls (Throttle.simulate limit ((t0, a0) :: evs) Throttle.init) = [(t0, a0)] ∧
  Throttle.calls
    (Throttle.simulate limit (((t0, a0) :: evs) ++ (t1, a1) :: evs') Throttle.init)
  = [(t0, a0); (t1, a1)].
Proof.
  intros Hw Hle Hw'.
  assert (Hi : Throttle.idle (A:=A) Throttle.init) by (split; reflexivity).
  pose proof (call_idle limit Throttle.init (t0, a0) Hi) as Hc0.
  assert (Hburst : Throttle.simulate limit ((t0, a0) :: evs) Throttle.init
                   = Throttle.call limit Throttle.init (t0, a0)).
  { simpl. eapply simulate_closed; eauto. }
  split; [rewrite Hburst; apply Hc0|].
  assert (Hc1 : Throttle.closed limit t1 ([(t0, a0)] ++ [(t1, a1)])
                  (Throttle.call limit (Throttle.call limit Throttle.init (t0, a0))
                     (t1, a1))).
  { destruct (run_timers_closed_after limit _ _ _ t1 Hc0 Hle) as [Hi1 Hlog].
    pose proof (call_idle limit _ (t1, a1) Hi1) as Hc. simpl in Hc.
    rewrite Hlog in Hc.
    unfold Throttle.call at 1. simpl.
    unfold Throttle.call in Hc at 1. simpl in Hc.
    rewrite (run_timers_idle _ _ Hi1) in Hc. exact Hc. }
  unfold Throttle.simulate in *. rewrite foldl_app, Hburst. simpl.
  fold (Throttle.simulate limit evs'
          (Throttle.call limit (Throttle.call limit Throttle.init (t0, a0)) (t1, a1))).
  rewrite (simulate_closed limit evs' _ _ _ Hc1 Hw').
  apply Hc1.
Qed.

(** X7. Behind its throttle the control follows the position of the first
    scroll event of each window of 16 ms: the events that follow inside the
    window do not reach [handleScroll], so the control keeps the state of the
    first, whatever the positions they report, until an event comes after the
    window. *)
Theorem backToTop_follows_first_of_window t0 y0 evs t1 y1 evs' st :
  Throttle.within THROTTLE_DELAY t0 evs →
  t0 + THROTTLE_DELAY ≤ t1 →
  Throttle.within THROTTLE_DELAY t1 evs' →
  visible (afterScrolls ((t0, y0) :: evs) st)
    = negb (Qle_bool y0 BACK_TO_TOP_THRESHOLD) ∧
  visible (afterScrolls (((t0, y0) :: evs) ++ (t1, y1) :: evs') st)
    = negb (Qle_bool y1 BACK_TO_TOP_THRESHOLD).
Proof.
  intros Hw Hle Hw'. unfold afterScrolls.
  destruct (simulate_two_windows THROTTLE_DELAY t0 y0 evs t1 y1 evs' Hw Hle Hw')
    as [-> ->].
  simpl. rewrite !handleScroll_visible. auto.
Qed.

End BackToTopFacts.

Section BackToTopExamples.
Import BackToTop.

(** The page goes to 301 and, 5 ms later, back to 0: the second event falls
    in the window of the first and the control stays visible at the top of
    the page; 16 ms apart, the control is hidden. *)
Lemma backToTop_follows_first_of_window_witness :
  (Throttle.within THROTTLE_DELAY 0 [(5, 0%Q)] ∧ 0 + THROTTLE_DELAY ≤ 16 ∧
   Throttle.within (A:=Q) THROTTLE_DELAY 16 []) ∧
  visible (afterScrolls [(0, 301%Q); (5, 0%Q)] {| visible := false |}) = true ∧
  visible (afterScrolls [(0, 301%Q); (5, 0%Q); (16, 0%Q)] {| visible := false |}) = false.
Proof.
  assert (H1 : Throttle.within THROTTLE_DELAY 0 [(5, 0%Q)])
    by (repeat constructor; simpl; unfold THROTTLE_DELAY; lia).
  assert (H2 : 0 + THROTTLE_DELAY ≤ 16) by (unfold THROTTLE_DELAY; lia).
  assert (H3 : Throttle.within (A:=Q) THROTTLE_DELAY 16 []) by constructor.
  split; [tauto|].
  exact (backToTop_follows_first_of_window 0 301%Q [(5, 0%Q)] 16 0%Q []
           {| visible := false |} H1 H2 H3).
Defined.

End BackToTopExamples.

(** ** Reports of the intersection observers *)

#[local] Set Warnings "-clear-no-such-hyp".

Section ObserverFacts.
Import LazyLoader.

Lemma handleIntersect_loads b : ∀ st,
  loads (handleIntersect st b) = loads st ++ intersecting b ∧
  observed (handleIntersect st b) = observed st ∖ list_to_set (intersecting b) ∧
  loaded (handleIntersect st b) = loaded st ∧
  lazy (handleIntersect st b) = lazy st.
Proof.
  unfold handleIntersect, intersecting.
  induction b as [|e b IH]; intros st; simpl.
  - rewrite app_nil_r. repeat split. set_solver.
  - destruct (isIntersecting e); simpl; [|apply IH].
    destruct (IH (unobserve (target e) (loadImage (target e) st)))
      as (-> & -> & -> & ->).
    simpl. rewrite <- app_assoc. repeat split. set_solver.
Qed.

(** X8. The loader starts a load for every entry that a callback reports as
    intersecting, in the order of the reports, and for no other image; the
    images reported leave the observed set; the class [loaded] is set by no
    callback of the observer. *)
Theorem loads_follow_reports batches : ∀ st,
  loads (deliver batches st) = loads st ++ concat (intersecting <$> batches) ∧
  observed (deliver batches st)
    = observed st ∖ list_to_set (concat (intersecting <$> batches)) ∧
  loaded (deliver batches st) = loaded st.
Proof.
  induction batches as [|b bs IH]; intros st; simpl.
  - rewrite app_nil_r. repeat split. set_solver.
  - destruct (IH (handleIntersect st b)) as (-> & -> & ->).
    destruct (handleIntersect_loads b st) as (-> & -> & -> & _).
    rewrite <- app_assoc. repeat split. set_solver.
Qed.

(** X9. Without [IntersectionObserver], [init] starts one load for each
    image at once and observes nothing; with it, [init] starts no load and
    observes every image. *)
Theorem init_fallback_loads_each_once images :
  NoDup images →
  (∀ img, attempts img (init false images) = if decide (img ∈ images) then 1 else 0) ∧
  observed (init false images) = ∅ ∧
  (∀ img, attempts img (init true images) = 0) ∧
  observed (init true images) = list_to_set images.
Proof.
  intros Hnd. unfold init.
  destruct (loadAllImages_loads images
              {| observed := ∅; lazy := ∅; loads := []; loaded := ∅ |}) as [Hl Ho].
  split; [|split; [exact Ho|split; reflexivity]].
  intros img. unfold attempts. rewrite Hl. simpl.
  clear Hl Ho. induction Hnd as [|x l Hx Hnd IH]; simpl.
  - destruct (decide (img ∈ [])) as [Hin|_]; [inversion Hin|reflexivity].
  - destruct (Nat.eqb_spec img x) as [->|Hne]; simpl.
    + rewrite IH. destruct (decide (x ∈ l)); [contradiction|].
      destruct (decide (x ∈ x :: l)) as [_|Hn]; [reflexivity|].
      exfalso. apply Hn, elem_of_cons. auto.
    + rewrite IH. destruct (decide (img ∈ l)) as [Hin|Hnin];
        destruct (decide (img ∈ x :: l)) as [Hin'|Hnin']; try reflexivity.
      * exfalso. apply Hnin', elem_of_cons. auto.
      * apply elem_of_cons in Hin' as [?|?]; contradiction.
Qed.

End ObserverFacts.

Section AnimationFacts.
Import AnimationObserver.

Lemma handleIntersect_revealed b : ∀ st,
  revealed (handleIntersect st b)
    = revealed st ∪ list_to_set (LazyLoader.intersecting b) ∧
  observed (handleIntersect st b)
    = observed st ∖ list_to_set (LazyLoader.intersecting b).
Proof.
  unfold handleIntersect, LazyLoader.intersecting.
  induction b as [|e b IH]; intros st; simpl.
  - split; set_solver.
  - destruct (LazyLoader.isIntersecting e); simpl; [|apply IH].
    destruct (IH {| observed := observed st ∖ {[LazyLoader.target e]};
                    revealed := revealed st ∪ {[LazyLoader.target e]} |}) as [-> ->].
    simpl. split; set_solver.
Qed.

(** X10. The reveal is one shot and irreversible: after any callbacks the
    elements with the class [fade-in] are those that had it before together
    with every element that an entry reported as intersecting, however often
    it was reported, and these elements are observed no more.  No callback
    removes the class. *)
Theorem reveal_is_one_shot batches : ∀ st,
  revealed (deliver batches st)
    = revealed st ∪ list_to_set (concat (LazyLoader.intersecting <$> batches)) ∧
  observed (deliver batches st)
    = observed st ∖ list_to_set (concat (LazyLoader.intersecting <$> batches)) ∧
  revealed st ⊆ revealed (deliver batches st).
Proof.
  induction batches as [|b bs IH]; intros st; simpl.
  - repeat split; set_solver.
  - destruct (IH (handleIntersect st b)) as (-> & -> & _).
    destruct (handleIntersect_revealed b st) as [-> ->].
    repeat split; set_solver.
Qed.

End AnimationFacts.

Section ObserverExamples.
Import LazyLoader.

Lemma init_fallback_loads_each_once_witness :
  NoDup [0; 1; 2] ∧
  attempts 1 (init false [0; 1; 2]) = 1 ∧
  attempts 7 (init false [0; 1; 2]) = 0 ∧
  observed (init false [0; 1; 2]) = ∅.
Proof.
  assert (Hnd : NoDup [0; 1; 2])
    by (apply NoDup_ListNoDup; repeat constructor; simpl; intuition lia).
  destruct (init_fallback_loads_each_once [0; 1; 2] Hnd) as (Hatt & Hobs & _).
  split; [exact Hnd|]. split; [|split; [|exact Hobs]].
  - rewrite (Hatt 1). reflexivity.
  - rewrite (Hatt 7). reflexivity.
Defined.

End ObserverExamples.

(** ** Application start *)

Section AppFacts.
Import App.
Variable throws : controller → bool.

Lemma plan_NoDup hostname : NoDup (plan hostname).*1.
Proof.
  unfold plan.
  destruct (bool_decide (hostname = "localhost") || bool_decide (hostname = "127.0.0.1"));
    apply NoDup_ListNoDup; repeat constructor; simpl; intuition discriminate.
Qed.

Lemma elem_of_names (l : list (string * controller)) name c :
  (name, c) ∈ l → name ∈ l.*1.
Proof. intros H. apply list_elem_of_fmap. exists (name, c). auto. Qed.

(** The statements that run before the first throw: each binds its name. *)
Lemma construct_app pre rest : ∀ m,
  Forall (λ p, throws p.2 = false) pre → NoDup pre.*1 →
  ∃ m', construct throws (pre ++ rest) m = construct throws rest m' ∧
        ∀ name c, m' !! name = Some c ↔
                  (name, c) ∈ pre ∨ ((name ∉ pre.*1) ∧ m !! name = Some c).
Proof.
  induction pre as [|[n c0] pre IH]; intros m Hok Hnd.
  - exists m. split; [reflexivity|]. intros name c. split.
    + intros H. right. split; [apply not_elem_of_nil|exact H].
    + intros [H|[_ H]]; [inversion H|exact H].
  - apply Forall_cons in Hok as [Hc Hok]. simpl in Hc.
    simpl in Hnd. apply NoDup_cons in Hnd as [Hn Hnd].
    simpl. rewrite Hc.
    destruct (IH (<[n := c0]> m) Hok Hnd) as (m' & -> & Hm').
    exists m'. split; [reflexivity|]. intros name c. rewrite Hm'.
    rewrite elem_of_cons, not_elem_of_cons.
    destruct (decide (name = n)) as [->|Hne].
    + rewrite lookup_insert_eq. split.
      * intros [H|[_ [= ->]]]; [|auto].
        exfalso. apply Hn. eapply elem_of_names; eauto.
      * intros [[[= ->]|H]|[[H _] _]]; [auto| |congruence].
        exfalso. apply Hn. eapply elem_of_names; eauto.
    + rewrite lookup_insert_ne by congruence. split.
      * intros [H|[H1 H2]]; auto.
      * intros [[[= -> ->]|H]|[[_ H1] H2]]; [congruence|auto|auto].
Qed.

(** X11. When no constructor throws, [init] registers every controller
    under its name, the performance monitor only on [localhost] or
    [127.0.0.1], installs the error handlers and creates the announcer;
    [getModule] returns the controller of a registered name and nothing for
    any other name. *)
Theorem init_registers_controllers hostname :
  (∀ c, throws c = false) →
  handlers (init hostname throws initial) = true ∧
  announcer (init hostname throws initial) = true ∧
  (∀ name c, getModule name (init hostname throws initial) = Some c
             ↔ (name, c) ∈ plan hostname) ∧
  (is_Some (getModule "performanceMonitor" (init hostname throws initial))
   ↔ hostname = "localhost" ∨ hostname = "127.0.0.1").
Proof.
  intros Hok.
  assert (Hall : Forall (λ p, throws p.2 = false) (plan hostname))
    by (apply Forall_forall; intros; apply Hok).
  destruct (construct_app (plan hostname) [] ∅ Hall (plan_NoDup hostname))
    as (m' & Hc & Hm').
  rewrite app_nil_r in Hc. change (construct throws [] m') with (m', true) in Hc.
  unfold init, getModule.
  change (modules initial) with (∅ : gmap string controller). rewrite Hc. simpl.
  assert (Hlook : ∀ name c, m' !! name = Some c ↔ (name, c) ∈ plan hostname).
  { intros name c. rewrite Hm', lookup_empty. split; [intros [?|[_ ?]]|]; auto.
    discriminate. }
  split; [reflexivity|]. split; [reflexivity|]. split; [exact Hlook|].
  split.
  - intros [c Hc']. apply Hlook in Hc'. unfold plan in Hc'.
    destruct (decide (hostname = "localhost")) as [?|H1]; [auto|].
    destruct (decide (hostname = "127.0.0.1")) as [?|H2]; [auto|].
    rewrite (bool_decide_eq_false_2 _ H1), (bool_decide_eq_false_2 _ H2) in Hc'.
    simpl in Hc'.
    repeat (apply elem_of_cons in Hc' as [Hc'|Hc']; [discriminate|]).
    inversion Hc'.
  - intros Hhost. exists PerformanceMonitor. apply Hlook. unfold plan.
    assert (Hb : bool_decide (hostname = "localhost")
                 || bool_decide (hostname = "127.0.0.1") = true).
    { destruct Hhost as [->| ->]; reflexivity. }
    rewrite Hb. apply elem_of_app. right. apply list_elem_of_singleton. reflexivity.
Qed.

(** X12. When the constructor of a controller throws, [init] stops there:
    the controllers before it stay registered, the one that threw and those
    after it are not, the error handlers are not installed and the announcer
    is not created; the error is logged. *)
Theorem init_stops_at_first_throw hostname pre name c post :
  plan hostname = pre ++ (name, c) :: post →
  Forall (λ p, throws p.2 = false) pre →
  throws c = true →
  handlers (init hostname throws initial) = false ∧
  announcer (init hostname throws initial) = false ∧
  console (init hostname throws initial) = ["Error initializing app:"] ∧
  (∀ name' c', getModule name' (init hostname throws initial) = Some c'
               ↔ (name', c') ∈ pre) ∧
  getModule name (init hostname throws initial) = None ∧
  (∀ p, p ∈ post → getModule p.1 (init hostname throws initial) = None).
Proof.
  intros Hplan Hpre Hthrow.
  pose proof (plan_NoDup hostname) as Hnd. rewrite Hplan, fmap_app in Hnd.
  apply NoDup_app in Hnd as (Hndpre & Hdisj & Hndpost). simpl in Hndpost.
  destruct (construct_app pre ((name, c) :: post) ∅ Hpre Hndpre) as (m' & Hc & Hm').
  cbn [construct] in Hc. rewrite Hthrow in Hc.
  unfold init, getModule. rewrite Hplan.
  change (modules initial) with (∅ : gmap string controller). rewrite Hc. simpl.
  assert (Hlook : ∀ n' c', m' !! n' = Some c' ↔ (n', c') ∈ pre).
  { intros n' c'. rewrite Hm', lookup_empty. split; [intros [?|[_ ?]]|]; auto.
    discriminate. }
  assert (Hnone : ∀ n', n' ∈ (name :: post.*1) → m' !! n' = None).
  { intros n' Hin. destruct (m' !! n') as [c'|] eqn:Hl; [|reflexivity].
    apply Hlook in Hl. exfalso. apply (Hdisj n'); [|exact Hin].
    eapply elem_of_names; eauto. }
  repeat split; try apply Hlook.
  - apply Hnone, elem_of_cons. auto.
  - intros p Hp. apply Hnone, elem_of_cons. right.
    apply list_elem_of_fmap. exists p. auto.
Qed.

End AppFacts.

Section AppExamples.
Import App.

(** On [localhost] with constructors that do not throw. *)
Lemma init_registers_controllers_witness :
  handlers (init "localhost" (λ _, false) initial) = true ∧
  getModule "faq" (init "localhost" (λ _, false) initial) = Some FAQ ∧
  is_Some (getModule "performanceMonitor" (init "localhost" (λ _, false) initial)) ∧
  getModule "missing" (init "localhost" (λ _, false) initial) = None.
Proof.
  destruct (init_registers_controllers (λ _, false) "localhost" (λ _, eq_refl))
    as (Hh & _ & Hlook & Hperf).
  split; [exact Hh|]. split; [|split; [|reflexivity]].
  - apply Hlook. apply list_elem_of_In. simpl. auto 10.
  - apply Hperf. left. reflexivity.
Defined.

(** On another host, with a form validator whose constructor throws. *)
Lemma init_stops_at_first_throw_witness :
  handlers (init "example.com"
              (λ c, match c with FormValidator => true | _ => false end) initial) = false ∧
  getModule "lazyLoader"
    (init "example.com"
       (λ c, match c with FormValidator => true | _ => false end) initial)
  = Some LazyLoader ∧
  getModule "formValidator"
    (init "example.com"
       (λ c, match c with FormValidator => true | _ => false end) initial) = None.
Proof.
  destruct (init_stops_at_first_throw
              (λ c, match c with FormValidator => true | _ => false end)
              "example.com"
              [("navigation", Navigation); ("lazyLoader", LazyLoader)]
              "formValidator" FormValidator
              [("faq", FAQ); ("backToTop", BackToTop);
               ("animationObserver", AnimationObserver)]
              eq_refl ltac:(repeat constructor) eq_refl)
    as (Hh & _ & _ & Hlook & Hnone & _).
  split; [exact Hh|]. split; [|exact Hnone].
  apply Hlook. apply list_elem_of_In. simpl. auto.
Defined.

End AppExamples.

(** ** Field validation: stability and frame *)

Section ValidationStability.
Import JS FormValidator.

Lemma hasAttribute_required_clear f doc :
  hasAttribute (clearFieldError f doc).1 "required" = hasAttribute f "required".
Proof.
  unfold clearFieldError, hasAttribute.
  destruct (doc !! errorId f); simpl; rewrite lookup_delete_ne by discriminate;
    reflexivity.
Qed.

Lemma hasAttribute_required_show f m doc :
  hasAttribute (showFieldError f m doc).1 "required" = hasAttribute f "required".
Proof.
  unfold showFieldError, hasAttribute.
  destruct (doc !! errorId f); simpl; rewrite lookup_insert_ne by discriminate;
    reflexivity.
Qed.

(** The marks do not change what the rules read of a field. *)
Lemma verdict_clear f doc : verdict (clearFieldError f doc).1 = verdict f.
Proof.
  unfold verdict. rewrite hasAttribute_required_clear.
  unfold clearFieldError. destruct (doc !! errorId f); reflexivity.
Qed.

Lemma verdict_show f m doc : verdict (showFieldError f m doc).1 = verdict f.
Proof.
  unfold verdict. rewrite hasAttribute_required_show.
  unfold showFieldError. destruct (doc !! errorId f); reflexivity.
Qed.

Lemma difference_twice_singleton (C : gset string) x :
  (C ∖ {[x]}) ∖ {[x]} = C ∖ {[x]}.
Proof. set_solver. Qed.

Lemma union_difference_singleton (C : gset string) x :
  ((C ∖ {[x]}) ∪ {[x]}) ∖ {[x]} = C ∖ {[x]}.
Proof. set_solver. Qed.

(** What the two functions make of the field does not depend on the
    page. *)
Lemma clearFieldError_field f doc doc' :
  (clearFieldError f doc).1 = (clearFieldError f doc').1.
Proof.
  unfold clearFieldError.
  destruct (doc !! errorId f); destruct (doc' !! errorId f); reflexivity.
Qed.

Lemma showFieldError_field f m doc doc' :
  (showFieldError f m doc).1 = (showFieldError f m doc').1.
Proof.
  unfold showFieldError.
  destruct (doc !! errorId f); destruct (doc' !! errorId f); reflexivity.
Qed.

Lemma errorId_clear f doc : errorId (clearFieldError f doc).1 = errorId f.
Proof. unfold clearFieldError. destruct (doc !! errorId f); reflexivity. Qed.

Lemma errorId_show f m doc : errorId (showFieldError f m doc).1 = errorId f.
Proof. unfold showFieldError. destruct (doc !! errorId f); reflexivity. Qed.

(** What the two functions make of the page. *)
Lemma clearFieldError_page f doc :
  (clearFieldError f doc).2
  = match doc !! errorId f with
    | Some e =>
        <[errorId f := {| classList := classList e ∖ {["visible"]};
                          attributes := attributes e;
                          textContent := ""; descendants := [] |}]>
          (foldr delete doc (descendants e))
    | None => doc
    end.
Proof.
  unfold clearFieldError. destruct (doc !! errorId f) as [e|]; [|reflexivity].
  cbn [snd]. unfold removeClass. rewrite lookup_setTextContent.
  unfold setTextContent. rewrite insert_insert_eq. reflexivity.
Qed.

Lemma showFieldError_page f m doc :
  (showFieldError f m doc).2
  = match doc !! errorId f with
    | Some e =>
        <[errorId f := {| classList := classList e ∪ {["visible"]};
                          attributes := attributes e;
                          textContent := m; descendants := [] |}]>
          (foldr delete doc (descendants e))
    | None => doc
    end.
Proof.
  unfold showFieldError. destruct (doc !! errorId f) as [e|]; [|reflexivity].
  cbn [snd]. unfold addClass. rewrite lookup_setTextContent.
  unfold setTextContent. rewrite insert_insert_eq. reflexivity.
Qed.

Lemma clear_clear f doc :
  clearFieldError (clearFieldError f doc).1 (clearFieldError f doc).2
  = clearFieldError f doc.
Proof.
  apply injective_projections.
  - rewrite (clearFieldError_field _ _ ∅), (clearFieldError_field f doc ∅).
    unfold clearFieldError, setNode. rewrite !lookup_empty. simpl.
    rewrite delete_delete_eq, difference_twice_singleton. reflexivity.
  - rewrite (clearFieldError_page (clearFieldError f doc).1), errorId_clear.
    rewrite (clearFieldError_page f doc).
    destruct (doc !! errorId f) as [e|] eqn:He; [|rewrite He; reflexivity].
    rewrite lookup_insert_eq. simpl.
    rewrite insert_insert_eq, difference_twice_singleton. reflexivity.
Qed.

Lemma clear_show f m doc :
  clearFieldError
    (showFieldError (clearFieldError f doc).1 m (clearFieldError f doc).2).1
    (showFieldError (clearFieldError f doc).1 m (clearFieldError f doc).2).2
  = clearFieldError f doc.
Proof.
  apply injective_projections.
  - rewrite (clearFieldError_field _ _ ∅),
      (showFieldError_field _ _ _ ∅), (clearFieldError_field f doc ∅).
    unfold showFieldError, clearFieldError, setNode. rewrite !lookup_empty. simpl.
    rewrite delete_insert_eq, delete_delete_eq, union_difference_singleton.
    reflexivity.
  - rewrite clearFieldError_page, errorId_show, errorId_clear.
    rewrite showFieldError_page, errorId_clear.
    rewrite (clearFieldError_page f doc).
    destruct (doc !! errorId f) as [e|] eqn:He; [|rewrite !He; reflexivity].
    rewrite !lookup_insert_eq. simpl.
    rewrite !insert_insert_eq, union_difference_singleton. reflexivity.
Qed.

(** X13. Validation is stable: validating a field again, with nothing
    changed in between, gives the same result and leaves the field and the
    page exactly as the first validation left them. *)
Theorem validateField_idempotent f doc :
  validateField (validateField f doc).1.2 (validateField f doc).2
  = validateField f doc.
Proof.
  rewrite (validateField_unfold f doc).
  destruct (verdict f) as [ok m] eqn:Hv. destruct ok; simpl.
  - rewrite validateField_unfold, verdict_clear, Hv. simpl.
    rewrite clear_clear. reflexivity.
  - rewrite validateField_unfold, verdict_show, verdict_clear, Hv. simpl.
    rewrite clear_show. reflexivity.
Qed.

(** Validation keeps the name, the default value and the focusability of
    the field. *)
Lemma validateField_keeps f doc :
  name (validateField f doc).1.2 = name f ∧
  defaultValue (validateField f doc).1.2 = defaultValue f ∧
  focusable (validateField f doc).1.2 = focusable f.
Proof.
  rewrite validateField_unfold.
  destruct (verdict f).1; cbn [fst snd].
  - rewrite (clearFieldError_field f doc ∅). repeat split.
  - rewrite (showFieldError_field _ _ _ ∅), (clearFieldError_field f doc ∅).
    repeat split.
Qed.

(** The page after a validation. *)
Lemma validateField_page f doc :
  (validateField f doc).2
  = match doc !! errorId f with
    | Some e =>
        <[errorId f := {| classList := if (verdict f).1
                                       then classList e ∖ {["visible"]}
                                       else (classList e ∖ {["visible"]}) ∪ {["visible"]};
                          attributes := attributes e;
                          textContent := if (verdict f).1 then "" else (verdict f).2;
                          descendants := [] |}]>
          (foldr delete doc (descendants e))
    | None => doc
    end.
Proof.
  rewrite validateField_unfold.
  destruct (verdict f).1; cbn [fst snd].
  - apply clearFieldError_page.
  - rewrite showFieldError_page, errorId_clear, clearFieldError_page.
    destruct (doc !! errorId f) as [e|] eqn:He; [|rewrite He; reflexivity].
    rewrite lookup_insert_eq. simpl. rewrite insert_insert_eq. reflexivity.
Qed.

(** X14. What validation leaves alone.  On the page it creates no element
    and changes only the error element of the field, which it empties: the
    elements that lay inside the error element leave the document, every
    other element stays as it was; a page without the error element is left
    untouched.  On the field it keeps the name, the type, the value, the
    default value and the text, every class other than [error] and every
    attribute other than [aria-invalid]. *)
Theorem validateField_frame f doc :
  (doc !! errorId f = None → (validateField f doc).2 = doc) ∧
  (∀ e, doc !! errorId f = Some e →
     (∃ e', (validateField f doc).2 !! errorId f = Some e' ∧
            descendants e' = [] ∧ attributes e' = attributes e ∧
            ∀ cls, cls ≠ "visible" → cls ∈ classList e' ↔ cls ∈ classList e) ∧
     ∀ id, id ≠ errorId f →
       (validateField f doc).2 !! id
       = if decide (id ∈ descendants e) then None else doc !! id) ∧
  dom (validateField f doc).2 ⊆ dom doc ∧
  name (validateField f doc).1.2 = name f ∧
  type (validateField f doc).1.2 = type f ∧
  value (validateField f doc).1.2 = value f ∧
  defaultValue (validateField f doc).1.2 = defaultValue f ∧
  textContent (node (validateField f doc).1.2) = textContent (node f) ∧
  (∀ cls, cls ≠ "error" →
     cls ∈ classList (node (validateField f doc).1.2) ↔ cls ∈ classList (node f)) ∧
  (∀ a, a ≠ "aria-invalid" →
     attributes (node (validateField f doc).1.2) !! a = attributes (node f) !! a).
Proof.
  split; [intros He; rewrite validateField_page, He; reflexivity|].
  split.
  { intros e He. rewrite validateField_page, He. split.
    - eexists. split; [apply lookup_insert_eq|]. simpl.
      split; [reflexivity|]. split; [reflexivity|].
      intros cls Hc. destruct (verdict f).1.
      + rewrite elem_of_difference, elem_of_singleton. tauto.
      + rewrite elem_of_union, elem_of_difference, !elem_of_singleton. tauto.
    - intros id Hid. rewrite lookup_insert_ne by congruence.
      destruct (decide (id ∈ descendants e)) as [Hin|Hout].
      + apply lookup_foldr_delete, Hin.
      + apply lookup_foldr_delete_not_elem_of, Hout. }
  split.
  { rewrite validateField_page.
    destruct (doc !! errorId f) as [e|] eqn:He; [|reflexivity].
    intros id. rewrite !elem_of_dom. intros [x Hx].
    destruct (decide (id = errorId f)) as [->|Hne]; [eauto|].
    rewrite lookup_insert_ne in Hx by congruence.
    apply lookup_foldr_delete_Some in Hx as [_ Hx]. eauto. }
  rewrite validateField_unfold.
  destruct (verdict f).1; cbn [fst snd].
  - rewrite (clearFieldError_field f doc ∅).
    unfold clearFieldError. rewrite lookup_empty. simpl.
    repeat split; try set_solver.
    intros a Ha. apply lookup_delete_ne. congruence.
  - rewrite (showFieldError_field _ _ _ ∅), (clearFieldError_field f doc ∅).
    unfold showFieldError, clearFieldError. rewrite !lookup_empty. simpl.
    repeat split; try set_solver.
    intros a Ha. rewrite lookup_insert_ne, lookup_delete_ne by congruence. reflexivity.
Qed.

End ValidationStability.

Section ValidationStabilityExamples.
Import JS FormValidator Examples.

(** On [iconErrorPage] the validation of the e-mail field takes the icon out
    of the document: the error element is left with the message alone. *)
Lemma validateField_frame_witness :
  iconErrorPage !! "email-icon" ≠ None ∧
  (validateField (emailField "not-an-email") iconErrorPage).2 !! "email-icon" = None ∧
  shownMessage (emailField "not-an-email")
               (validateField (emailField "not-an-email") iconErrorPage).2
  = Some "Please enter a valid email address.".
Proof.
  destruct (validateField_frame (emailField "not-an-email") iconErrorPage)
    as (_ & Hframe & _).
  destruct (Hframe _ eq_refl) as [_ Hother].
  split; [discriminate|]. split; [|reflexivity].
  rewrite Hother by discriminate. reflexivity.
Defined.

End ValidationStabilityExamples.

(** ** Form submission: the other outcomes *)

Section SubmitOutcomes.
Import JS FormValidator.
Variable textContentOf : string → string.
Variable markupOf : string → string.

(** What validation makes of a field does not depend on the page. *)
Lemma validateField_field f doc doc' :
  (validateField f doc).1 = (validateField f doc').1.
Proof.
  rewrite !validateField_unfold.
  destruct (verdict f).1; simpl.
  - rewrite (clearFieldError_field f doc doc'). reflexivity.
  - rewrite (clearFieldError_field f doc doc').
    rewrite (showFieldError_field _ _ (clearFieldError f doc).2 (clearFieldError f doc').2).
    reflexivity.
Qed.

Lemma validateField_result f doc : (validateField f doc).1.1 = (verdict f).1.
Proof. rewrite validateField_unfold. destruct (verdict f).1; reflexivity. Qed.

Lemma validateField_error_class f doc :
  "error" ∈ classList (node (validateField f doc).1.2) ↔ (verdict f).1 = false.
Proof.
  rewrite validateField_unfold. destruct (verdict f).1; simpl.
  - pose proof (clearFieldError_unmarked f doc) as [Hn _]. split; [tauto|discriminate].
  - pose proof (showFieldError_marked (clearFieldError f doc).1 (verdict f).2
                  (clearFieldError f doc).2) as [Hm _]. tauto.
Qed.

Lemma validateField_marked f doc :
  markedInvalid (validateField f doc).1.2 ↔ (verdict f).1 = false.
Proof.
  split.
  - intros [H _]. apply validateField_error_class in H. exact H.
  - intros Hv. rewrite validateField_unfold, Hv. simpl. apply showFieldError_marked.
Qed.

Lemma forallb_false_elem {A : Type} (f : A → bool) (l : list A) :
  forallb f l = false → ∃ x, x ∈ l ∧ f x = false.
Proof.
  induction l as [|a l IH]; simpl; [discriminate|].
  destruct (f a) eqn:Ha; simpl.
  - intros H. destruct (IH H) as (x & Hx & Hf). exists x.
    split; [apply elem_of_cons; auto|exact Hf].
  - intros _. exists a. split; [apply elem_of_cons; auto|exact Ha].
Qed.


(** [validateAll] validates every field, with no short cut. *)
Lemma validateAll_spec fs : ∀ doc,
  (validateAll fs doc).1.1 = forallb (λ f, (verdict f).1) fs ∧
  (validateAll fs doc).1.2 = (λ f, (validateField f ∅).1.2) <$> fs.
Proof.
  induction fs as [|f fs IH]; intros doc; [split; reflexivity|].
  simpl. pose proof (validateField_result f doc) as Hr.
  pose proof (validateField_field f doc ∅) as Hf.
  destruct (validateField f doc) as [[v f'] doc1]. simpl in Hr, Hf.
  destruct (IH doc1) as [Hok Hfs].
  destruct (validateAll fs doc1) as [[ok fs'] doc2]. simpl in *.
  subst. split; [reflexivity|]. f_equal.
  destruct (validateField f ∅) as [[v0 f0] d0]. simpl in *. congruence.
Qed.

(** X15. When a field fails, the submission is given up before the [try]
    block: the submit control, the banners and the log are left as they were,
    every field that fails is marked invalid and no other is.  The focus goes
    to the first field that fails when that field can take the focus, and
    stays where it was when it cannot: no later field is tried. *)
Theorem handleSubmit_invalid_aborts api p :
  (validateAll (inputs p) (document p)).1.1 = false →
  (handleSubmit_with textContentOf markupOf api p).2 = Aborted ∧
  submitBtn (handleSubmit_with textContentOf markupOf api p).1 = submitBtn p ∧
  alerts (handleSubmit_with textContentOf markupOf api p).1 = alerts p ∧
  console (handleSubmit_with textContentOf markupOf api p).1 = console p ∧
  disabledWrites (handleSubmit_with textContentOf markupOf api p).1 = disabledWrites p ∧
  (∀ j g, inputs p !! j = Some g →
     ∃ g', inputs (handleSubmit_with textContentOf markupOf api p).1 !! j = Some g' ∧
           (markedInvalid g' ↔ (verdict g).1 = false)) ∧
  ∃ i f, inputs p !! i = Some f ∧ (verdict f).1 = false ∧
         (∀ j g, inputs p !! j = Some g → j < i → (verdict g).1 = true) ∧
         focused (handleSubmit_with textContentOf markupOf api p).1
         = if focusable f then Some i else focused p.
Proof.
  intros Hinv. unfold handleSubmit_with, handleSubmit_begin.
  destruct (validateAll_spec (inputs p) (document p)) as [Hok Hfs].
  rewrite Hok in Hinv.
  destruct (validateAll (inputs p) (document p)) as [[ok fs] doc]. simpl in *.
  subst ok fs. rewrite Hinv. simpl.
  repeat (split; [reflexivity|]).
  split.
  - intros j g Hj. rewrite list_lookup_fmap, Hj. simpl.
    eexists. split; [reflexivity|]. apply validateField_marked.
  - assert (Hex : ∃ i g, list_find (λ f, "error" ∈ classList (node f))
                           ((λ f, (validateField f ∅).1.2) <$> inputs p) = Some (i, g)).
    { destruct (forallb_false_elem _ _ Hinv) as (g & Hg & Hv).
      destruct (list_find_elem_of (λ f, "error" ∈ classList (node f))
                  ((λ f, (validateField f ∅).1.2) <$> inputs p)
                  ((validateField g ∅).1.2)) as [[i g'] Hfind].
      - apply list_elem_of_fmap. exists g. auto.
      - apply validateField_error_class. exact Hv.
      - eauto. }
    destruct Hex as (i & g' & Hfind). unfold firstError. rewrite Hfind. simpl.
    apply list_find_Some in Hfind as (Hi & Herr & Hbefore).
    rewrite list_lookup_fmap in Hi.
    destruct (inputs p !! i) as [f|] eqn:Hf; [|discriminate].
    simpl in Hi. injection Hi as <-.
    exists i, f. split; [exact Hf|].
    split; [apply (validateField_error_class f ∅); exact Herr|].
    split.
    + intros j g Hj Hlt.
      specialize (Hbefore j ((validateField g ∅).1.2)).
      rewrite list_lookup_fmap, Hj in Hbefore. specialize (Hbefore eq_refl Hlt).
      rewrite validateField_error_class in Hbefore.
      destruct (verdict g).1; [reflexivity|congruence].
    + unfold focus. destruct (validateField_keeps f ∅) as (_ & _ & ->). reflexivity.
Qed.

Lemma validateAll_allValid p :
  allValid p →
  validateAll (inputs p) (document p)
  = (true, (λ f, (validateField f ∅).1.2) <$> inputs p,
     (validateAll (inputs p) (document p)).2).
Proof.
  unfold allValid. intros Hv.
  destruct (validateAll_spec (inputs p) (document p)) as [_ Hfs].
  destruct (validateAll (inputs p) (document p)) as [[ok fs] doc]. simpl in *.
  subst. reflexivity.
Qed.

(** X16. A valid form without a submit button is reported as a failed
    submission at once: reading the text of the missing control throws inside
    the [try] block, the [catch] block logs the error and, when the form has a
    parent, inserts the error banner; nothing waits and no control is
    touched. *)
Theorem handleSubmit_without_button api p :
  allValid p → submitBtn p = None →
  (handleSubmit_with textContentOf markupOf api p).2
    = (if attached p then Failed else Crashed) ∧
  alerts (handleSubmit_with textContentOf markupOf api p).1
    = alerts p ++ (if attached p then [errorAlert submissionError] else []) ∧
  console (handleSubmit_with textContentOf markupOf api p).1
    = console p ++ ["Form submission error:"] ∧
  submitBtn (handleSubmit_with textContentOf markupOf api p).1 = None ∧
  disabledWrites (handleSubmit_with textContentOf markupOf api p).1 = disabledWrites p.
Proof.
  intros Hv Hb. unfold handleSubmit_with, handleSubmit_begin.
  rewrite (validateAll_allValid p Hv). simpl. rewrite Hb.
  unfold catch, showErrorMessage, insertBefore. simpl.
  destruct (attached p); simpl; rewrite ?app_nil_r; repeat split; assumption.
Qed.


End SubmitOutcomes.

Section SubmitOutcomeExamples.
Import JS FormValidator Examples.

(** The second and the third field of [mixedForm] fail: both are marked,
    the focus goes to the second, the button is not touched.  In
    [hiddenForm] the first field that fails is hidden: the focus stays where
    it was, although the field after it fails too and could take it. *)
Lemma handleSubmit_invalid_aborts_witness :
  (validateAll (inputs mixedForm) (document mixedForm)).1.1 = false ∧
  (handleSubmit id id mixedForm).2 = Aborted ∧
  focused (handleSubmit id id mixedForm).1 = Some 1 ∧
  submitBtn (handleSubmit id id mixedForm).1 = submitBtn mixedForm ∧
  (validateAll (inputs hiddenForm) (document hiddenForm)).1.1 = false ∧
  (handleSubmit id id hiddenForm).2 = Aborted ∧
  focused (handleSubmit id id hiddenForm).1 = None.
Proof.
  assert (Hinv : (validateAll (inputs mixedForm) (document mixedForm)).1.1 = false)
    by reflexivity.
  assert (Hinv' : (validateAll (inputs hiddenForm) (document hiddenForm)).1.1 = false)
    by reflexivity.
  destruct (handleSubmit_invalid_aborts id id simulatedCall mixedForm Hinv)
    as (Hc & Hb & _).
  destruct (handleSubmit_invalid_aborts id id simulatedCall hiddenForm Hinv')
    as (Hc' & _).
  split; [exact Hinv|]. split; [exact Hc|]. split; [reflexivity|].
  split; [exact Hb|]. split; [exact Hinv'|]. split; [exact Hc'|reflexivity].
Defined.

Lemma handleSubmit_without_button_witness :
  allValid buttonlessForm ∧ submitBtn buttonlessForm = None ∧
  (handleSubmit id id buttonlessForm).2 = Failed ∧
  alerts (handleSubmit id id buttonlessForm).1 = [errorAlert submissionError].
Proof.
  assert (Hv : allValid buttonlessForm) by reflexivity.
  destruct (handleSubmit_without_button id id simulatedCall buttonlessForm Hv eq_refl)
    as (Hc & Ha & _).
  split; [exact Hv|]. split; [reflexivity|]. split; [exact Hc|exact Ha].
Defined.


End SubmitOutcomeExamples.

(** ** The rules by type of field *)

Section RulesByType.
Import JS FormValidator.

Lemma phoneShape_bounds s :
  phoneShape s → head s ≠ Some 48%N ∧ 1 ≤ length s ∧ length s ≤ 17.
Proof.
  intros (sign & first & rest & -> & Hs & Hf & _ & Hlen).
  unfold digit19 in Hf. apply andb_true_iff in Hf as [Hlo _].
  apply N.leb_le in Hlo.
  destruct Hs as [->| ->]; simpl; (split; [|lia]).
  - intros [= ->]. lia.
  - discriminate.
Qed.

(** X18. A phone field that is not blank is valid exactly when its value,
    trimmed and without white space, hyphens and parentheses, is an optional
    [+], a digit from 1 to 9 and at most fifteen digits.  Hence a number that
    starts with [0] is refused, and so is one of more than 17 characters or
    one made of separators only. *)
Theorem tel_field_valid_iff f doc :
  type f = "tel" → trim (value f) ≠ [] →
  ((validateField f doc).1.1 = true
   ↔ phoneShape (stripSeparators (trim (value f)))) ∧
  ((validateField f doc).1.1 = true →
   head (stripSeparators (trim (value f))) ≠ Some 48%N ∧
   1 ≤ length (stripSeparators (trim (value f))) ∧
   length (stripSeparators (trim (value f))) ≤ 17).
Proof.
  intros Ht Hv.
  assert (Hiff : (validateField f doc).1.1 = true
                 ↔ phoneShape (stripSeparators (trim (value f)))).
  { rewrite validateField_result, <- phoneRegex_shape. unfold verdict.
    rewrite Ht, (bool_decide_eq_false_2 _ Hv), andb_false_r. simpl.
    destruct (test phoneRegex (stripSeparators (trim (value f)))); simpl;
      split; congruence. }
  split; [exact Hiff|]. intros H. apply phoneShape_bounds, Hiff, H.
Qed.

Lemma plain_no_at l :
  plain l → List.filter (N.eqb c_at) l = [] ∧ Forall (λ c, isWhiteSpace c = false) l.
Proof.
  intros [_ Hall]. induction Hall as [|c l Hc Hall IH]; [split; constructor|].
  unfold notSpaceAt in Hc. apply andb_true_iff in Hc as [Hw Ha].
  apply negb_true_iff in Hw, Ha. destruct IH as [IH1 IH2].
  split; [|constructor; assumption].
  cbn [List.filter]. rewrite N.eqb_sym, Ha. exact IH1.
Qed.

Lemma emailShape_one_at s :
  emailShape s →
  length (List.filter (N.eqb c_at) s) = 1 ∧ Forall (λ c, isWhiteSpace c = false) s.
Proof.
  intros (l & d & t & -> & Hl & Hd & Ht).
  destruct (plain_no_at l Hl) as [Hl1 Hl2].
  destruct (plain_no_at d Hd) as [Hd1 Hd2].
  destruct (plain_no_at t Ht) as [Ht1 Ht2].
  split.
  - rewrite List.filter_app. cbn [List.filter]. rewrite List.filter_app.
    cbn [List.filter]. rewrite Hl1, Hd1, Ht1. reflexivity.
  - apply Forall_app. split; [exact Hl2|]. constructor; [reflexivity|].
    apply Forall_app. split; [exact Hd2|]. constructor; [reflexivity|exact Ht2].
Qed.

(** X19. An e-mail field that is not blank is valid exactly when its
    trimmed value has the form [local@domain.tld]; a valid value holds exactly
    one [@] and no white space. *)
Theorem email_field_valid_iff f doc :
  type f = "email" → trim (value f) ≠ [] →
  ((validateField f doc).1.1 = true ↔ emailShape (trim (value f))) ∧
  ((validateField f doc).1.1 = true →
   length (List.filter (N.eqb c_at) (trim (value f))) = 1 ∧
   Forall (λ c, isWhiteSpace c = false) (trim (value f))).
Proof.
  intros Ht Hv.
  assert (Hiff : (validateField f doc).1.1 = true ↔ emailShape (trim (value f))).
  { rewrite validateField_result, <- emailRegex_shape. unfold verdict.
    rewrite Ht, (bool_decide_eq_false_2 _ Hv), andb_false_r. simpl.
    destruct (test emailRegex (trim (value f))); simpl; split; congruence. }
  split; [exact Hiff|]. intros H. apply emailShape_one_at, Hiff, H.
Qed.

(** X20. A blank field, of any type, is valid exactly when it is not
    required; a field that is not blank and whose type is neither [email]
    nor [tel] is always valid: no other type is checked. *)
Theorem other_fields_only_required f doc :
  (trim (value f) = [] →
   ((validateField f doc).1.1 = true ↔ hasAttribute f "required" = false)) ∧
  (trim (value f) ≠ [] → type f ≠ "email" → type f ≠ "tel" →
   (validateField f doc).1.1 = true).
Proof.
  rewrite validateField_result. unfold verdict. split.
  - intros Hv. rewrite (bool_decide_eq_true_2 _ Hv). simpl.
    rewrite !andb_false_r, andb_true_r.
    destruct (hasAttribute f "required"); simpl; split; congruence.
  - intros Hv He Hp.
    rewrite (bool_decide_eq_false_2 _ Hv), (bool_decide_eq_false_2 _ He),
      (bool_decide_eq_false_2 _ Hp), andb_false_r.
    reflexivity.
Qed.

End RulesByType.

Section RulesByTypeExamples.
Import JS FormValidator Examples.

(** A national number with a leading zero is refused, the same number in
    international form is accepted. *)
Lemma tel_field_valid_iff_witness :
  type (telField "0171 555-0101") = "tel" ∧
  trim (value (telField "0171 555-0101")) ≠ [] ∧
  (validateField (telField "0171 555-0101") ∅).1.1 = false ∧
  (validateField (telField "+49 (171) 555-0101") ∅).1.1 = true ∧
  phoneShape (stripSeparators (trim (value (telField "+49 (171) 555-0101")))).
Proof.
  assert (Hv : trim (value (telField "0171 555-0101")) ≠ []) by discriminate.
  assert (Hv' : trim (value (telField "+49 (171) 555-0101")) ≠ []) by discriminate.
  destruct (tel_field_valid_iff (telField "+49 (171) 555-0101") ∅ eq_refl Hv')
    as [Hiff _].
  split; [reflexivity|]. split; [exact Hv|]. split; [reflexivity|].
  split; [reflexivity|]. apply Hiff. reflexivity.
Defined.

Lemma email_field_valid_iff_witness :
  type (emailField "user@example.com") = "email" ∧
  trim (value (emailField "user@example.com")) ≠ [] ∧
  emailShape (trim (value (emailField "user@example.com"))) ∧
  length (List.filter (N.eqb c_at) (trim (value (emailField "user@example.com")))) = 1.
Proof.
  assert (Hv : trim (value (emailField "user@example.com")) ≠ []) by discriminate.
  destruct (email_field_valid_iff (emailField "user@example.com") ∅ eq_refl Hv)
    as [Hiff Hat].
  split; [reflexivity|]. split; [exact Hv|].
  split; [apply Hiff; reflexivity|apply Hat; reflexivity].
Defined.

End RulesByTypeExamples.
